(** * WebSeeds: mirror discovery and fallback download of .torrent files

    A shallow embedding of [erigon-lib/downloader/webseed.go].

    Go strings are byte sequences and are modelled by [string] (a list of
    8-bit [ascii] characters); Go maps are modelled by stdpp's [gmap]; the
    order in which Go ranges over a map is unspecified, so every loop over a
    map is modelled over an arbitrary permutation of the map's entries.
    Calls into other packages (net/http, net/url, the TOML and bencode
    decoders, the object-storage client, the file system) are collected in
    the record [Env] and are parameters of the development.  Logging calls
    have no effect that the program can observe and are left out. *)

From Stdlib Require Import ZArith NArith Ascii String List Lia.
From stdpp Require Import base option list gmap strings fin_maps sorting.

Local Open Scope string_scope.
Local Open Scope list_scope.

(** ** Go's [strings] package (the functions used by webseed.go) *)
Module strings.

(** [strings.HasPrefix(s, prefix)] *)
Fixpoint HasPrefix (s prefix : string) : bool :=
  match prefix, s with
  | EmptyString, _ => true
  | String p prefix', String c s' =>
      if Ascii.eqb p c then HasPrefix s' prefix' else false
  | String _ _, EmptyString => false
  end.

(** The bytes of [s] from index [n] on: [s[n:]]. *)
Fixpoint drop (n : nat) (s : string) : string :=
  match n, s with
  | O, _ => s
  | S n', String _ s' => drop n' s'
  | S _, EmptyString => EmptyString
  end.

(** [strings.HasSuffix(s, suffix)]:
    [len(s) >= len(suffix) && s[len(s)-len(suffix):] == suffix] *)
Definition HasSuffix (s suffix : string) : bool :=
  (String.length suffix <=? String.length s)%nat
  && String.eqb (drop (String.length s - String.length suffix) s) suffix.

(** [strings.Split(s, sep)] for a separator of one byte, the only use in
    webseed.go ([":"]).  The result has one more element than [s] has
    separators; in particular it is never empty. *)
Fixpoint Split (s : string) (sep : ascii) : list string :=
  match s with
  | EmptyString => [EmptyString]
  | String c s' =>
      if Ascii.eqb c sep then EmptyString :: Split s' sep
      else match Split s' sep with
           | h :: t => String c h :: t
           | [] => [String c EmptyString]
           end
  end.

(** The UTF-8 encodings of the code points for which [unicode.IsSpace]
    holds: the six ASCII ones, U+0085, U+00A0, U+1680, U+2000..U+200A,
    U+2028, U+2029, U+202F, U+205F, U+3000. *)
Definition bytes (l : list N) : string :=
  string_of_list_ascii (map ascii_of_N l).

Definition spaces : list string :=
  map bytes
    [ [9]; [10]; [11]; [12]; [13]; [32];
      [194; 133]; [194; 160];
      [225; 154; 128];
      [226; 128; 128]; [226; 128; 129]; [226; 128; 130]; [226; 128; 131];
      [226; 128; 132]; [226; 128; 133]; [226; 128; 134]; [226; 128; 135];
      [226; 128; 136]; [226; 128; 137]; [226; 128; 138];
      [226; 128; 168]; [226; 128; 169]; [226; 128; 175];
      [226; 129; 159];
      [227; 128; 128] ]%N.

(** The number of bytes of the white-space rune that [s] starts with, if
    any.  UTF-8 is prefix free, so this is the width of the first rune
    exactly when that rune is a space. *)
Definition leadingSpace (s : string) : option nat :=
  String.length <$> List.find (HasPrefix s) spaces.

(** [strings.TrimLeftFunc(s, unicode.IsSpace)].  [fuel] bounds the number
    of runes removed; [String.length s] is always enough. *)
Fixpoint trimLeft (fuel : nat) (s : string) : string :=
  match fuel with
  | O => s
  | S fuel' =>
      match leadingSpace s with
      | Some (S w) => trimLeft fuel' (drop (S w) s)
      | _ => s
      end
  end.

Definition rev (s : string) : string :=
  string_of_list_ascii (List.rev (list_ascii_of_string s)).

(** The white-space rune that ends [s], seen on the reversed string. *)
Definition trailingSpace (r : string) : option nat :=
  String.length <$> List.find (fun sp => HasPrefix r (rev sp)) spaces.

Fixpoint trimRightRev (fuel : nat) (r : string) : string :=
  match fuel with
  | O => r
  | S fuel' =>
      match trailingSpace r with
      | Some (S w) => trimRightRev fuel' (drop (S w) r)
      | _ => r
      end
  end.

(** [strings.TrimSpace(s)]: all leading and trailing white space removed,
    the leading one first. *)
Definition TrimSpace (s : string) : string :=
  let l := trimLeft (String.length s) s in
  rev (trimRightRev (String.length l) (rev l)).

End strings.

(** ** Go's [encoding/base64], [StdEncoding] *)
Module base64.

(** [decodeMap]: the value of an alphabet character, [None] for the 0xff
    entries. *)
Definition decodeMap (c : ascii) : option N :=
  let n := N_of_ascii c in
  if (65 <=? n)%N && (n <=? 90)%N then Some (n - 65)%N
  else if (97 <=? n)%N && (n <=? 122)%N then Some (n - 71)%N
  else if (48 <=? n)%N && (n <=? 57)%N then Some (n + 4)%N
  else if (n =? 43)%N then Some 62%N
  else if (n =? 47)%N then Some 63%N
  else None.

Definition padChar : ascii := "=".

Definition isNewline (c : ascii) : bool :=
  Ascii.eqb c "010" || Ascii.eqb c "013".

(** [val := dbuf[0]<<18 | dbuf[1]<<12 | dbuf[2]<<6 | dbuf[3]] *)
Definition quantum (a b c d : N) : N :=
  N.lor (N.lor (N.shiftl a 18) (N.shiftl b 12)) (N.lor (N.shiftl c 6) d).

Definition byteAt (val : N) (shift : N) : ascii :=
  ascii_of_N (N.land (N.shiftr val shift) 255).

(** The decoder on an input without ['\r'] and ['\n']: full quanta of
    four alphabet characters, then possibly one padded quantum, then the
    end of the input.  The encoding is not strict: the unused low bits of
    a padded quantum are not checked. *)
Fixpoint decodeQuanta (src : list ascii) : option (list ascii) :=
  match src with
  | [] => Some []
  | a :: b :: c :: d :: rest =>
      match decodeMap a, decodeMap b with
      | Some va, Some vb =>
          match decodeMap c, decodeMap d with
          | Some vc, Some vd =>
              let val := quantum va vb vc vd in
              cons (byteAt val 16) <$>
                (cons (byteAt val 8) <$>
                   (cons (byteAt val 0) <$> decodeQuanta rest))
          | Some vc, None =>
              if Ascii.eqb d padChar then
                match rest with
                | [] => let val := quantum va vb vc 0 in
                        Some [byteAt val 16; byteAt val 8]
                | _ :: _ => None
                end
              else None
          | None, _ =>
              if Ascii.eqb c padChar && Ascii.eqb d padChar then
                match rest with
                | [] => let val := quantum va vb 0 0 in
                        Some [byteAt val 16]
                | _ :: _ => None
                end
              else None
          end
      | _, _ => None
      end
  | _ => None
  end.

(** [StdEncoding.DecodeString(s)]; ['\r'] and ['\n'] are ignored wherever
    they stand.  [None] is a [CorruptInputError]. *)
Definition DecodeString (s : string) : option string :=
  string_of_list_ascii <$>
    decodeQuanta (List.filter (fun c => negb (isNewline c))
                    (list_ascii_of_string s)).

Definition encodeStd (n : N) : ascii :=
  if (n <? 26)%N then ascii_of_N (n + 65)
  else if (n <? 52)%N then ascii_of_N (n + 71)
  else if (n <? 62)%N then ascii_of_N (n - 4)
  else if (n =? 62)%N then "+" else "/".

Definition sextet (val shift : N) : ascii :=
  encodeStd (N.land (N.shiftr val shift) 63).

(** [StdEncoding.EncodeToString] *)
Fixpoint encode (src : list ascii) : list ascii :=
  match src with
  | [] => []
  | [x] =>
      let val := N.shiftl (N_of_ascii x) 16 in
      [sextet val 18; sextet val 12; padChar; padChar]
  | [x; y] =>
      let val := N.lor (N.shiftl (N_of_ascii x) 16) (N.shiftl (N_of_ascii y) 8) in
      [sextet val 18; sextet val 12; sextet val 6; padChar]
  | x :: y :: z :: rest =>
      let val := N.lor (N.lor (N.shiftl (N_of_ascii x) 16)
                          (N.shiftl (N_of_ascii y) 8)) (N_of_ascii z) in
      sextet val 18 :: sextet val 12 :: sextet val 6 :: sextet val 0
        :: encode rest
  end.

Definition EncodeToString (s : string) : string :=
  string_of_list_ascii (encode (list_ascii_of_string s)).

End base64.

(** ** Results of fallible calls *)

(** The errors webseed.go creates itself, and one constructor for every
    collaborator that may return one. *)
Inductive error : Type :=
  | ErrInvalidTokenFormat          (* "token has invalid format, exepcing 'v1:tokenInBase64'" *)
  | ErrNotSupportedVersion (version : string) (* "not supported version: %s" *)
  | ErrInvalidCredentialsFormat    (* "... exepcing 'accountId:accessKeyId:accessKeySecret'" *)
  | ErrInvalidBytes (url : string) (* "invalid bytes received from url %s, err=%w" *)
  | ErrCorruptInput                (* base64.CorruptInputError *)
  | ErrNewRequest                  (* http.NewRequest *)
  | ErrDo                          (* http.DefaultClient.Do *)
  | ErrReadAll                     (* io.ReadAll *)
  | ErrTomlDecode                  (* toml decoder *)
  | ErrLoadConfig                  (* config.LoadDefaultConfig *)
  | ErrGetObject                   (* s3 client GetObject *)
  | ErrReadFile                    (* os.ReadFile *)
  | ErrPersist.                    (* saveTorrent *)

(** A Go call either returns normally, returns a non-nil [error], or
    panics.  The only run-time panic webseed.go can raise by itself is an
    index out of range. *)
Inductive outcome (A : Type) : Type :=
  | Ok (a : A)
  | Err (e : error)
  | Panic (index len : nat).   (* "index out of range [index] with length len" *)
Arguments Ok {A} a.
Arguments Err {A} e.
Arguments Panic {A} index len.

(** What a call does to the outside world, in the order it does it. *)
Inductive Event : Type :=
  | EvDo (url : string)                       (* http.DefaultClient.Do(request) *)
  | EvReadAll (url : string)                  (* io.ReadAll(resp.Body) *)
  | EvGetObject (accountId bucket key : string) (* client.GetObject *)
  | EvReadFile (path : string)                (* os.ReadFile *)
  | EvSave (path data : string).              (* saveTorrent *)

(** Calls are values of a writer monad over the event trace with an
    outcome; an error or a panic ends the call, the events before it stay. *)
Definition M (A : Type) : Type := list Event * outcome A.

Definition ret {A} (a : A) : M A := ([], Ok a).
Definition fail {A} (e : error) : M A := ([], Err e).
Definition tell (ev : Event) : M unit := ([ev], Ok tt).
Definition bind {A B} (m : M A) (f : A -> M B) : M B :=
  match m with
  | (t, Ok a) => let '(t', r) := f a in (t ++ t', r)
  | (t, Err e) => (t, Err e)
  | (t, Panic i n) => (t, Panic i n)
  end.

Declare Scope go_scope.
Delimit Scope go_scope with go.
Notation "'let*' x := m 'in' k" := (bind m (fun x => k))
  (at level 10, x name, m at level 100, k at level 200) : go_scope.
Local Open Scope go_scope.

(** [l[i]] on a slice. *)
Definition index {A} (l : list A) (i : nat) : M A :=
  match l !! i with
  | Some x => ret x
  | None => ([], Panic i (length l))
  end.

(** A collaborator's [(value, error)] result. *)
Definition orErr {A} (o : option A) (e : error) : M A :=
  match o with
  | Some a => ret a
  | None => fail e
  end.

(** ** snaptype and the state of [WebSeeds] *)

(** [snaptype.WebSeedsFromProvider = map[string]string] *)
Abbreviation WebSeedsFromProvider := (gmap string string).
(** [snaptype.WebSeedUrls = map[string]metainfo.UrlList], a [UrlList]
    being a [[]string]. *)
Abbreviation WebSeedUrls := (gmap string (list string)).

(** [http.Response], as far as it is used: the advertised content length
    (an int64; -1 when unknown) and what reading the body to its end gives
    ([None]: the read fails). *)
Record Response : Type := {
  ContentLength : Z;
  Body : option string
}.

(** The file system: the regular files and their contents, by path. *)
Abbreviation FS := (gmap string string).

(** ** The collaborators

    [URL] stands for [*url.URL]. *)
Class Env (URL : Type) : Type := {
  (** [String()] and [Path] of a [*url.URL], and [url.ParseRequestURI] *)
  URL_String : URL -> string;
  URL_Path : URL -> string;
  ParseRequestURI : string -> option URL;
  (** whether [http.NewRequest(http.MethodGet, s, nil)] returns a request *)
  NewRequest : string -> bool;
  (** [http.DefaultClient.Do] of a GET request for the URL, under a context
      that is ([true]) or is not cancelled *)
  Do : bool -> string -> option Response;
  (** [toml.NewDecoder(r).Decode(&response)] and [toml.Unmarshal] *)
  tomlDecode : string -> option WebSeedsFromProvider;
  (** whether [config.LoadDefaultConfig] returns a configuration *)
  LoadDefaultConfig : bool -> bool;
  (** [client.GetObject] for (accountId, accessKeyId, accessKeySecret),
      bucket and key: the response body read to its end *)
  GetObject : bool -> string * string * string -> string -> string
              -> option (option string);
  (** [os.ReadFile] *)
  ReadFile : string -> option string;
  (** whether the bencode decoder accepts the bytes as a [metainfo.MetaInfo] *)
  bencodeDecode : string -> bool;
  (** [filepath.Join] *)
  Join : string -> string -> string;
  (** whether a write to the path succeeds (disk not full, permission) *)
  canPersist : string -> bool;
  (** [ctx.Done()] is closed when the provider with this index in the
      visit order is reached *)
  ctxDone : nat -> bool;
  (** the order in which [range] yields the entries of the document at the
      given position of [list]; Go leaves it unspecified *)
  rangeOrder : nat -> WebSeedsFromProvider -> list (string * string);
  rangeOrder_perm : forall i m, rangeOrder i m ≡ₚ map_to_list m
}.

(** [snaptype.TorrentUrls = map[string][]*url.URL] *)
Abbreviation TorrentUrls URL := (gmap string (list URL)).

(** The fields of [WebSeeds] but the mutex (see [Locking]) and the logger. *)
Record WebSeeds (URL : Type) : Type := {
  byFileName : WebSeedUrls;
  torrentUrls : TorrentUrls URL;
  downloadTorrentFile : bool;
  chainName : string
}.
Arguments byFileName {URL} _.
Arguments torrentUrls {URL} _.
Arguments downloadTorrentFile {URL} _.
Arguments chainName {URL} _.
Arguments Build_WebSeeds {URL} _ _ _ _.

(** ** The provider calls *)
Section Providers.
Context {URL : Type} `{!Env URL}.

(** [callHttpProvider]: GET the provider's document and decode it. *)
Definition callHttpProvider (done : bool) (webSeedProviderUrl : URL)
  : M WebSeedsFromProvider :=
  if NewRequest (URL_String webSeedProviderUrl) then
    let* _ := tell (EvDo (URL_String webSeedProviderUrl)) in
    let* resp := orErr (Do done (URL_String webSeedProviderUrl)) ErrDo in
    orErr (Body resp ≫= tomlDecode) ErrTomlDecode
  else fail ErrNewRequest.

(** Lines 206-222 of [callS3Provider]: from the token
    [v1:base64(accID:accessKeyID:accessKeySecret)] to the three fields.
    The three index expressions of line 219 are evaluated before the
    length of [l] is compared with 3 on line 220. *)
Definition s3Credentials (token : string) : M (string * string * string) :=
  let l := strings.Split token ":" in
  if negb (length l =? 2)%nat then fail ErrInvalidTokenFormat else
  let* l0 := index l 0 in
  let* l1 := index l 1 in
  let version := strings.TrimSpace l0 in
  let tokenInBase64 := strings.TrimSpace l1 in
  if negb (String.eqb version "v1") then fail (ErrNotSupportedVersion version) else
  let* rawDecodedText := orErr (base64.DecodeString tokenInBase64) ErrCorruptInput in
  let l := strings.Split rawDecodedText ":" in
  let* l0 := index l 0 in
  let* l1 := index l 1 in
  let* l2 := index l 2 in
  let accountId := strings.TrimSpace l0 in
  let accessKeyId := strings.TrimSpace l1 in
  let accessKeySecret := strings.TrimSpace l2 in
  if negb (length l =? 3)%nat then fail ErrInvalidCredentialsFormat else
  ret (accountId, accessKeyId, accessKeySecret).

(** [callS3Provider] *)
Definition callS3Provider (d : WebSeeds URL) (done : bool) (token : string)
  : M WebSeedsFromProvider :=
  let bucketName := "erigon-v3-snapshots-" +:+ chainName d +:+ "-webseed" in
  let* creds := s3Credentials token in
  let fileName := "webseeds.toml" in
  if LoadDefaultConfig done then
    let* _ := tell (EvGetObject creds.1.1 bucketName fileName) in
    let* body := orErr (GetObject done creds bucketName fileName) ErrGetObject in
    orErr (body ≫= tomlDecode) ErrTomlDecode
  else fail ErrLoadConfig.

(** [readWebSeedsFile] *)
Definition readWebSeedsFile (webSeedProviderPath : string)
  : M WebSeedsFromProvider :=
  let* _ := tell (EvReadFile webSeedProviderPath) in
  let* data := orErr (ReadFile webSeedProviderPath) ErrReadFile in
  orErr (tomlDecode data) ErrTomlDecode.

(** ** [downloadWebseedTomlFromProviders] *)

(** The [select] of lines 54-58 and 67-71. *)
Inductive selected : Type := CaseDone | CaseDefault.

Definition selectDone (done : bool) : selected :=
  if done then CaseDone else CaseDefault.

(** The rest of a loop body: on an error the loop goes on with the next
    provider, otherwise [list = append(list, response)]. *)
Definition collect (r : M WebSeedsFromProvider)
    (lst : list WebSeedsFromProvider) : M (list WebSeedsFromProvider) :=
  match r with
  | (t, Ok response) => (t, Ok (lst ++ [response]))
  | (t, Err _) => (t, Ok lst)
  | (t, Panic i n) => (t, Panic i n)
  end.

(** Lines 53-65.  [i] counts the providers visited so far.  The [break]
    of [case <-ctx.Done()] is inside the [select] statement and ends that
    statement: both cases go on with the call on line 59. *)
Fixpoint httpLoop (i : nat) (httpProviders : list URL)
    (lst : list WebSeedsFromProvider) : M (list WebSeedsFromProvider) :=
  match httpProviders with
  | [] => ret lst
  | webSeedProviderURL :: rest =>
      match selectDone (ctxDone i) with
      | CaseDone (* break *) | CaseDefault =>
          let* lst := collect (callHttpProvider (ctxDone i) webSeedProviderURL) lst in
          httpLoop (S i) rest lst
      end
  end.

(** Lines 66-78. *)
Fixpoint s3Loop (d : WebSeeds URL) (i : nat) (s3Providers : list string)
    (lst : list WebSeedsFromProvider) : M (list WebSeedsFromProvider) :=
  match s3Providers with
  | [] => ret lst
  | webSeedProviderURL :: rest =>
      match selectDone (ctxDone i) with
      | CaseDone (* break *) | CaseDefault =>
          let* lst := collect (callS3Provider d (ctxDone i) webSeedProviderURL) lst in
          s3Loop d (S i) rest lst
      end
  end.

(** Lines 80-91. *)
Fixpoint diskLoop (diskProviders : list string)
    (lst : list WebSeedsFromProvider) : M (list WebSeedsFromProvider) :=
  match diskProviders with
  | [] => ret lst
  | webSeedFile :: rest =>
      let* lst := collect (readWebSeedsFile webSeedFile) lst in
      diskLoop rest lst
  end.

(** Lines 96-105, the body of the inner loop.  Reading a missing key of a
    Go map gives the nil slice, [!!!] gives [[]]. *)
Definition mergeEntry (acc : WebSeedUrls * TorrentUrls URL) (e : string * string)
  : WebSeedUrls * TorrentUrls URL :=
  let '(webSeedUrls, torrentUrls) := acc in
  let '(name, wUrl) := e in
  if strings.HasSuffix name ".torrent" then
    match ParseRequestURI wUrl with
    | None => acc
    | Some uri =>
        (webSeedUrls, <[name := (torrentUrls !!! name) ++ [uri]]> torrentUrls)
    end
  else (<[name := (webSeedUrls !!! name) ++ [wUrl]]> webSeedUrls, torrentUrls).

(** Lines 94-107. *)
Fixpoint mergeList (i : nat) (lst : list WebSeedsFromProvider)
    (acc : WebSeedUrls * TorrentUrls URL) : WebSeedUrls * TorrentUrls URL :=
  match lst with
  | [] => acc
  | urls :: rest =>
      mergeList (S i) rest (fold_left mergeEntry (rangeOrder i urls) acc)
  end.

(** Lines 109-112, run without interference (see [Locking] for the
    interleavings). *)
Definition publish (webSeedUrls : WebSeedUrls) (torrentUrls' : TorrentUrls URL)
    (d : WebSeeds URL) : WebSeeds URL :=
  {| byFileName := webSeedUrls;
     torrentUrls := torrentUrls';
     downloadTorrentFile := downloadTorrentFile d;
     chainName := chainName d |}.

(** The documents collected by lines 52-91, in visit order. *)
Definition collectProviders (d : WebSeeds URL) (s3Providers : list string)
    (httpProviders : list URL) (diskProviders : list string)
  : M (list WebSeedsFromProvider) :=
  let* lst := httpLoop 0 httpProviders [] in
  let* lst := s3Loop d (length httpProviders) s3Providers lst in
  diskLoop diskProviders lst.

Definition downloadWebseedTomlFromProviders (d : WebSeeds URL)
    (s3Providers : list string) (httpProviders : list URL)
    (diskProviders : list string) : M (WebSeeds URL) :=
  let* lst := collectProviders d s3Providers httpProviders diskProviders in
  let '(webSeedUrls, torrentUrls) := mergeList 0 lst (∅, ∅) in
  ret (publish webSeedUrls torrentUrls d).

End Providers.

(** ** The calls of a pass and what a document adds to a list *)
Section Visits.
Context {URL : Type} `{!Env URL}.

(** What one document adds to the list of a name in either map. *)
Definition webSeedOf (name : string) (o : option string) : list string :=
  if strings.HasSuffix name ".torrent" then [] else option_list o.

Definition torrentOf (name : string) (o : option string) : list URL :=
  if strings.HasSuffix name ".torrent"
  then option_list (o ≫= ParseRequestURI) else [].

(** The provider calls of one pass in the order in which lines 53-91
    make them. *)
Definition httpCalls (i : nat) (httpProviders : list URL)
  : list (M WebSeedsFromProvider) :=
  imap (fun k u => callHttpProvider (ctxDone (i + k)) u) httpProviders.

Definition s3Calls (d : WebSeeds URL) (i : nat) (s3Providers : list string)
  : list (M WebSeedsFromProvider) :=
  imap (fun k token => callS3Provider d (ctxDone (i + k)) token) s3Providers.

Definition diskCalls (diskProviders : list string)
  : list (M WebSeedsFromProvider) :=
  readWebSeedsFile <$> diskProviders.

Definition visits (d : WebSeeds URL) (s3Providers : list string)
    (httpProviders : list URL) (diskProviders : list string)
  : list (M WebSeedsFromProvider) :=
  httpCalls 0 httpProviders
  ++ s3Calls d (length httpProviders) s3Providers
  ++ diskCalls diskProviders.

(** The document of a call that returned one. *)
Definition okDoc (r : M WebSeedsFromProvider) : list WebSeedsFromProvider :=
  match r.2 with Ok doc => [doc] | _ => [] end.

Definition failed {A} (r : M A) : Prop :=
  match r.2 with Err _ => True | _ => False end.

Definition panics {A} (r : M A) : Prop :=
  match r.2 with Panic _ _ => True | _ => False end.

(** The three loops are one loop over the calls. *)
Fixpoint collectAll (calls : list (M WebSeedsFromProvider))
    (lst : list WebSeedsFromProvider) : M (list WebSeedsFromProvider) :=
  match calls with
  | [] => ret lst
  | r :: rest => let* lst := collect r lst in collectAll rest lst
  end.

End Visits.

(** ** Other packages used by the download pass *)

(** [datasize.MB]: a [ByteSize] of [1 << 20]. *)
Definition datasize_MB : Z := 1048576.

Module filepath.
(** The file component of [filepath.Split(path)] with the separator
    ['/']: what follows the last separator. *)
Definition SplitFile (path : string) : string :=
  List.last (strings.Split path "/") EmptyString.
End filepath.

(** Modelled from the spec: [dir.FileExist] of the package
    erigon-lib/common/dir.  A file already exists at the path. *)
Definition FileExist (fs : FS) (path : string) : bool :=
  bool_decide (is_Some (fs !! path)).

(** ** [downloadTorrentFilesFromProviders] *)
Section Coordinator.
Context {URL : Type} `{!Env URL}.

(** Modelled from the spec: [saveTorrent], which another file of the
    package defines.  The bytes are persisted to a temporary path and
    renamed into place at the path; a persist error (disk full,
    permission) leaves no file at the final path.  The spec names no
    other failure, in particular none for an empty byte sequence. *)
Definition saveTorrent (torrentFilePath res : string) (fs : FS)
  : FS * option error :=
  if canPersist torrentFilePath then (<[torrentFilePath := res]> fs, None)
  else (fs, Some ErrPersist).

(** [validateTorrentBytes] *)
Definition validateTorrentBytes (b url : string) : M unit :=
  if bencodeDecode b then ret tt else fail (ErrInvalidBytes url).

(** Line 271: [resp.ContentLength == 0 ||
    resp.ContentLength > int64(128*datasize.MB)] *)
Definition tooSmallOrTooBig (contentLength : Z) : bool :=
  (contentLength =? 0)%Z || (128 * datasize_MB <? contentLength)%Z.

(** [callTorrentHttpProvider].  Line 272 returns [nil, nil]: the nil
    slice, of length 0, and no error. *)
Definition callTorrentHttpProvider (done : bool) (url : URL) : M string :=
  if NewRequest (URL_String url) then
    let* _ := tell (EvDo (URL_String url)) in
    let* resp := orErr (Do done (URL_String url)) ErrDo in
    if tooSmallOrTooBig (ContentLength resp) then ret EmptyString
    else
      let* _ := tell (EvReadAll (URL_String url)) in
      let* res := orErr (Body resp) ErrReadAll in
      let* _ := validateTorrentBytes res (URL_Path url) in
      ret res
  else fail ErrNewRequest.

(** How one turn of the loop of lines 147-159 ends. *)
Inductive turn : Type :=
  | Continue          (* the next mirror *)
  | ReturnNil         (* line 158 *)
  | Crash.            (* a panic of the call *)

(** Lines 148-158, for one mirror. *)
Definition tryMirror (done : bool) (tPath : string) (url : URL) (fs : FS)
  : list Event * FS * turn :=
  match callTorrentHttpProvider done url with
  | (t, Err _) => (t, fs, Continue)
  | (t, Panic _ _) => (t, fs, Crash)
  | (t, Ok res) =>
      match saveTorrent tPath res fs with
      | (fs', Some _) => (t ++ [EvSave tPath res], fs', Continue)
      | (fs', None) => (t ++ [EvSave tPath res], fs', ReturnNil)
      end
  end.

(** The function passed to [e.Go] on line 146, run on its own; [done]
    tells for each turn whether the context is cancelled by then. *)
Fixpoint torrentTask (done : nat -> bool) (tPath : string)
    (tUrls : list URL) (fs : FS) : list Event * FS :=
  match tUrls with
  | [] => ([], fs)
  | url :: rest =>
      match tryMirror (done O) tPath url fs with
      | (t, fs', Continue) =>
          let '(t', fs'') := torrentTask (fun n => done (S n)) tPath rest fs' in
          (t ++ t', fs'')
      | (t, fs', _) => (t, fs')
      end
  end.

(** Lines 137-143: the skip of the families that are not supported. *)
Definition notSupportedYet (name : string) : bool :=
  (strings.HasSuffix name ".v.torrent" || strings.HasSuffix name ".ef.torrent")
  && strings.HasPrefix (filepath.SplitFile name) "commitment".

(** A goroutine started on line 146 and the mirrors it has not tried. *)
Record Task : Type := {
  taskName : string;
  tPath : string;
  tUrls : list URL
}.

(** The pass while it runs: the entries the loop of line 131 has not
    reached, the goroutines that have not returned, the file system, and
    the events so far, each with the name it was done for. *)
Record Pass : Type := {
  pending : list (string * list URL);
  tasks : list Task;
  files : FS;
  trace : list (string * Event);
  addedNew : nat
}.

(** One turn of the loop of line 131. *)
Definition loopStep (rootDir : string) (s : Pass) : option Pass :=
  match pending s with
  | [] => None
  | (name, urls) :: rest =>
      let path := Join rootDir name in
      if FileExist (files s) path then
        Some {| pending := rest; tasks := tasks s; files := files s;
                trace := trace s; addedNew := addedNew s |}
      else if notSupportedYet name then
        Some {| pending := rest; tasks := tasks s; files := files s;
                trace := trace s; addedNew := S (addedNew s) |}
      else
        Some {| pending := rest;
                tasks := tasks s ++ [{| taskName := name; tPath := path; tUrls := urls |}];
                files := files s; trace := trace s;
                addedNew := S (addedNew s) |}
  end.

(** One turn of the loop of line 147 in the goroutine at position [i]. *)
Definition taskStep (done : bool) (i : nat) (s : Pass) : option Pass :=
  match tasks s !! i with
  | None => None
  | Some tk =>
      match tUrls tk with
      | [] =>   (* line 160 *)
          Some {| pending := pending s; tasks := delete i (tasks s);
                  files := files s; trace := trace s; addedNew := addedNew s |}
      | url :: rest =>
          let '(t, fs', r) := tryMirror done (tPath tk) url (files s) in
          Some {| pending := pending s;
                  tasks := match r with
                           | Continue =>
                               <[i := {| taskName := taskName tk; tPath := tPath tk;
                                         tUrls := rest |}]> (tasks s)
                           | _ => delete i (tasks s)
                           end;
                  files := fs';
                  trace := trace s ++ map (pair (taskName tk)) t;
                  addedNew := addedNew s |}
      end
  end.

(** The goroutines run interleaved with the loop and with each other. *)
Definition step (rootDir : string) (s s' : Pass) : Prop :=
  loopStep rootDir s = Some s' \/ exists done i, taskStep done i s = Some s'.

Definition start (order : list (string * list URL)) (fs : FS) : Pass :=
  {| pending := order; tasks := []; files := fs; trace := []; addedNew := 0 |}.

(** The states [downloadTorrentFilesFromProviders(ctx, rootDir)] goes
    through when it is called with the file system [fs].  Lines 120-125
    return at once; otherwise the loop ranges over [d.TorrentUrls()] in
    some order. *)
Definition passes (d : WebSeeds URL) (rootDir : string) (fs : FS) (s : Pass) : Prop :=
  if negb (downloadTorrentFile d) || (size (torrentUrls d) =? 0)%nat
  then s = start [] fs
  else exists order, order ≡ₚ map_to_list (torrentUrls d)
                     /\ rtc (step rootDir) (start order fs) s.

(** [e.Wait()] has returned: every entry was reached and every goroutine
    has returned. *)
Definition finished (s : Pass) : Prop := pending s = [] /\ tasks s = [].

(** Runs of the pass under a schedule: [None] is a turn of the loop of
    line 131, [Some (done, i)] a turn of the goroutine at position [i]. *)
Fixpoint run (rootDir : string) (schedule : list (option (bool * nat)))
    (s : Pass) : option Pass :=
  match schedule with
  | [] => Some s
  | None :: rest => loopStep rootDir s ≫= run rootDir rest
  | Some (done, i) :: rest => taskStep done i s ≫= run rootDir rest
  end.

(** What holds all along a pass that is called with the files [fs0]: the
    files of [fs0] are there unchanged, no goroutine works on the path of
    one of them, and nothing was done for a name whose path has one. *)
Definition kept (rootDir : string) (fs0 : FS) (s : Pass) : Prop :=
  (forall p c, fs0 !! p = Some c -> files s !! p = Some c)
  /\ (forall tk, tk ∈ tasks s ->
        fs0 !! tPath tk = None /\ tPath tk = Join rootDir (taskName tk))
  /\ (forall n ev, (n, ev) ∈ trace s -> fs0 !! Join rootDir n = None).

End Coordinator.
Arguments Task : clear implicits.
Arguments Pass : clear implicits.

(** ** The mutex: the publishing section and the accessors, interleaved *)
Module Locking.
Section Locking.
Context {URL : Type} `{!Env URL}.

(** The statements that touch [d.lock], [d.byFileName] or
    [d.torrentUrls]. *)
Inductive instr : Type :=
  | ILock                                           (* d.lock.Lock() *)
  | IUnlock                                         (* d.lock.Unlock() *)
  | ISetByFileName (m : WebSeedUrls)                (* d.byFileName = m *)
  | ISetTorrentUrls (m : gmap string (list URL))    (* d.torrentUrls = m *)
  | IGetTorrentUrls                                 (* d.torrentUrls *)
  | IGetLen                                         (* len(d.byFileName) *)
  | IGetByFileName (name : string).                 (* d.byFileName[name] *)

(** Lines 109-112; the deferred [Unlock] runs when the function returns,
    after both assignments. *)
Definition publishSection (webSeedUrls : WebSeedUrls)
    (torrentUrls' : gmap string (list URL)) : list instr :=
  [ILock; ISetByFileName webSeedUrls; ISetTorrentUrls torrentUrls'; IUnlock].

(** The accessors; the returned value is read before the deferred
    [Unlock] runs. *)
Definition TorrentUrls : list instr := [ILock; IGetTorrentUrls; IUnlock].
Definition Len : list instr := [ILock; IGetLen; IUnlock].
Definition ByFileName (name : string) : list instr :=
  [ILock; IGetByFileName name; IUnlock].

(** The calls the model runs concurrently. *)
Inductive IsCall : list instr -> Prop :=
  | call_publish w t : IsCall (publishSection w t)
  | call_TorrentUrls : IsCall TorrentUrls
  | call_Len : IsCall Len
  | call_ByFileName name : IsCall (ByFileName name).

Inductive value : Type :=
  | VTorrentUrls (m : gmap string (list URL))
  | VLen (n : nat)
  | VUrlList (v : option (list string)).   (* [v, ok] *)

(** What an accessor got: the thread, the holder of the mutex and the
    two maps of [d] at that instant, and the value read. *)
Record Obs : Type := {
  reader : nat;
  holder : option nat;
  seen : WebSeeds URL;
  got : value
}.

(** [pcs] gives for each call the number of its statements already
    executed. *)
Record Config : Type := {
  shared : WebSeeds URL;
  mu : option nat;
  pcs : list nat;
  log : list Obs
}.

Definition setShared (c : Config) (d : WebSeeds URL) (i pc : nat) : Config :=
  {| shared := d; mu := mu c; pcs := <[i := S pc]> (pcs c); log := log c |}.

Definition observe (c : Config) (i pc : nat) (v : value) : Config :=
  {| shared := shared c; mu := mu c; pcs := <[i := S pc]> (pcs c);
     log := log c ++ [{| reader := i; holder := mu c; seen := shared c; got := v |}] |}.

(** The next statement of call [i]; [None] when the call has returned or
    waits for the mutex. *)
Definition exec (progs : list (list instr)) (i : nat) (c : Config)
  : option Config :=
  prog ← progs !! i;
  pc ← pcs c !! i;
  ins ← prog !! pc;
  match ins with
  | ILock =>
      match mu c with
      | None => Some {| shared := shared c; mu := Some i;
                        pcs := <[i := S pc]> (pcs c); log := log c |}
      | Some _ => None
      end
  | IUnlock =>
      Some {| shared := shared c; mu := None;
              pcs := <[i := S pc]> (pcs c); log := log c |}
  | ISetByFileName m =>
      Some (setShared c {| byFileName := m; torrentUrls := torrentUrls (shared c);
                           downloadTorrentFile := downloadTorrentFile (shared c);
                           chainName := chainName (shared c) |} i pc)
  | ISetTorrentUrls m =>
      Some (setShared c {| byFileName := byFileName (shared c); torrentUrls := m;
                           downloadTorrentFile := downloadTorrentFile (shared c);
                           chainName := chainName (shared c) |} i pc)
  | IGetTorrentUrls => Some (observe c i pc (VTorrentUrls (torrentUrls (shared c))))
  | IGetLen => Some (observe c i pc (VLen (size (byFileName (shared c)))))
  | IGetByFileName name =>
      Some (observe c i pc (VUrlList (byFileName (shared c) !! name)))
  end.

Definition lstep (progs : list (list instr)) (c c' : Config) : Prop :=
  exists i, exec progs i c = Some c'.

Definition init (progs : list (list instr)) (d : WebSeeds URL) : Config :=
  {| shared := d; mu := None; pcs := replicate (length progs) 0; log := [] |}.

(** The pairs of maps that one discovery pass has produced: the pair
    present before the calls, and the pair of each publishing section. *)
Definition fromOnePass (progs : list (list instr)) (d0 : WebSeeds URL)
    (w : WebSeedUrls) (t : gmap string (list URL)) : Prop :=
  (w = byFileName d0 /\ t = torrentUrls d0)
  \/ publishSection w t ∈ progs.

(** The value an accessor returns for a pair of maps. *)
Definition reads (w : WebSeedUrls) (t : gmap string (list URL)) (v : value) : Prop :=
  match v with
  | VTorrentUrls m => m = t
  | VLen n => n = size w
  | VUrlList o => exists name, o = w !! name
  end.

Implicit Types (progs : list (list instr)) (c : Config).

(** Runs under a schedule: the calls that do their next statement. *)
Fixpoint lrun progs (schedule : list nat) c : option Config :=
  match schedule with
  | [] => Some c
  | i :: rest => exec progs i c ≫= lrun progs rest
  end.

(** The statements call [i] has not executed yet. *)
Definition remaining progs c (i : nat) : list instr :=
  match progs !! i, pcs c !! i with
  | Some prog, Some pc => drop pc prog
  | _, _ => []
  end.

(** [d] after the assignments of [code]. *)
Fixpoint assigned (code : list instr) (d : WebSeeds URL)
  : WebSeeds URL :=
  match code with
  | [] => d
  | ISetByFileName m :: rest =>
      assigned rest {| byFileName := m; torrentUrls := torrentUrls d;
                       downloadTorrentFile := downloadTorrentFile d;
                       chainName := chainName d |}
  | ISetTorrentUrls m :: rest =>
      assigned rest {| byFileName := byFileName d; torrentUrls := m;
                       downloadTorrentFile := downloadTorrentFile d;
                       chainName := chainName d |}
  | _ :: rest => assigned rest d
  end.

(** The pair of maps once the holder of the mutex, if there is one, has
    left its critical section. *)
Definition settled progs c : WebSeeds URL :=
  match mu c with
  | Some i => assigned (remaining progs c i) (shared c)
  | None => shared c
  end.

Definition goodObs progs (d0 : WebSeeds URL) (o : Obs) : Prop :=
  holder o = Some (reader o)
  /\ fromOnePass progs d0 (byFileName (seen o)) (torrentUrls (seen o))
  /\ reads (byFileName (seen o)) (torrentUrls (seen o)) (got o).

(** What holds in every configuration the calls can reach. *)
Record Inv progs (d0 : WebSeeds URL) c : Prop := {
  inv_length : length (pcs c) = length progs;
  inv_holder : forall i prog pc,
      progs !! i = Some prog -> pcs c !! i = Some pc ->
      (mu c = Some i <-> (0 < pc < length prog)%nat);
  inv_settled : fromOnePass progs d0 (byFileName (settled progs c))
                  (torrentUrls (settled progs c));
  inv_log : forall o, o ∈ log c -> goodObs progs d0 o
}.

End Locking.
End Locking.

(** ** A concrete set of collaborators, to run the model on *)

(** URLs are their text; a request URI is accepted when it is an absolute
    path or has the scheme http or https; a descriptor is accepted when it
    starts like a bencoded dictionary; every write succeeds; [range]
    follows the order of [map_to_list]. *)
Definition testEnv (net : bool -> string -> option Response)
    (toml : string -> option WebSeedsFromProvider)
    (objects : bool -> string -> string -> option (option string))
    (disk : string -> option string)
    (cancelled : nat -> bool) : Env string :=
  {| URL_String u := u;
     URL_Path u := u;
     ParseRequestURI s :=
       if strings.HasPrefix s "/" || strings.HasPrefix s "http://"
          || strings.HasPrefix s "https://"
       then Some s else None;
     NewRequest _ := true;
     Do := net;
     tomlDecode := toml;
     LoadDefaultConfig _ := true;
     GetObject done _ := objects done;
     ReadFile := disk;
     bencodeDecode b := strings.HasPrefix b "d";
     Join dir name := dir +:+ "/" +:+ name;
     canPersist _ := true;
     ctxDone := cancelled;
     rangeOrder _ m := map_to_list m;
     rangeOrder_perm _ m := reflexivity (map_to_list m) |}.

(** ** A pass over three providers, to run the model on *)
Module Scenario.

Definition doc1 : WebSeedsFromProvider :=
  <["a.seg" := "https://one.example/a.seg"]>
    (<["a.seg.torrent" := "https://one.example/a.seg.torrent"]>
       (<["b.seg.torrent" := "one.example/b.seg.torrent"]> ∅)).

Definition doc2 : WebSeedsFromProvider :=
  <["a.seg" := "https://two.example/a.seg"]>
    (<["a.seg.torrent" := "https://two.example/a.seg.torrent"]> ∅).

Definition doc3 : WebSeedsFromProvider :=
  <["a.seg" := "https://three.example/a.seg"]> ∅.

Definition toml (body : string) : option WebSeedsFromProvider :=
  if String.eqb body "one" then Some doc1
  else if String.eqb body "two" then Some doc2
  else if String.eqb body "three" then Some doc3
  else None.

Definition descriptor : string := "d4:infod6:lengthi1eee".

(** The servers; a request under a cancelled context fails. *)
Definition net (done : bool) (url : string) : option Response :=
  if done then None
  else if String.eqb url "https://one.example/webseeds.toml"
    then Some {| ContentLength := 3; Body := Some "one" |}
  else if String.eqb url "https://empty.example/a.seg.torrent"
    then Some {| ContentLength := 0; Body := Some "" |}
  else if String.eqb url "https://huge.example/a.seg.torrent"
    then Some {| ContentLength := 128 * datasize_MB + 1; Body := Some descriptor |}
  else if String.eqb url "https://chunked.example/a.seg.torrent"
    then Some {| ContentLength := -1; Body := Some descriptor |}
  else if String.eqb url "https://good.example/a.seg.torrent"
    then Some {| ContentLength := 64 * datasize_MB; Body := Some descriptor |}
  else None.

Definition objects (done : bool) (bucket key : string) : option (option string) :=
  if done then None
  else if String.eqb bucket "erigon-v3-snapshots-mainnet-webseed"
          && String.eqb key "webseeds.toml"
    then Some (Some "two")
  else None.

Definition disk (path : string) : option string :=
  if String.eqb path "/etc/erigon/webseeds.toml" then Some "three" else None.

Definition env (cancelled : nat -> bool) : Env string :=
  testEnv net toml objects disk cancelled.

Definition running : Env string := env (fun _ => false).
Definition cancelled : Env string := env (fun _ => true).

Definition d0 : WebSeeds string :=
  {| byFileName := ∅; torrentUrls := ∅;
     downloadTorrentFile := true; chainName := "mainnet" |}.

Definition s3Providers : list string := ["v1:YWNjOmtleTpzZWNyZXQ="].
Definition httpProviders : list string :=
  ["https://one.example/webseeds.toml"; "https://down.example/webseeds.toml"].
Definition diskProviders : list string := ["/etc/erigon/webseeds.toml"].

End Scenario.

Module ScenarioDownload.

(** Two names with a mirror each; the descriptor of the first is on disk. *)
Definition d : WebSeeds string :=
  {| byFileName := ∅;
     torrentUrls :=
       <["a.seg.torrent" := ["https://good.example/a.seg.torrent"]]>
         (<["b.seg.torrent" := ["https://good.example/a.seg.torrent"]]> ∅);
     downloadTorrentFile := true; chainName := "mainnet" |}.

Definition fs : FS := <["/snapshots/a.seg.torrent" := "old"]> ∅.

(** The loop reaches both names, then the one goroutine does its turn. *)
Definition schedule : list (option (bool * nat)) :=
  [None; None; Some (false, O)].

End ScenarioDownload.

Module ScenarioLocking.
Import Locking.

Definition d0 : WebSeeds string :=
  {| byFileName := <["a.seg" := ["https://one.example/a.seg"]]> ∅;
     torrentUrls := <["a.seg.torrent" := ["https://one.example/a.seg.torrent"]]> ∅;
     downloadTorrentFile := true; chainName := "mainnet" |}.

(** A pass publishes two empty maps while one call reads the torrent map
    and another looks up "a.seg". *)
Definition progs : list (list (instr (URL:=string))) :=
  [publishSection ∅ ∅; TorrentUrls; ByFileName "a.seg"].

(** The first reader runs before the publishing section, the second
    after it. *)
Definition schedule : list nat := [1; 1; 1; 0; 0; 0; 0; 2; 2; 2]%nat.

End ScenarioLocking.

(** ** Definitions for the further properties *)

(** The characters the encoder writes: of the alphabet, or the padding. *)
Definition written (c : ascii) : Prop :=
  c = base64.padChar \/ exists n, (n < 64)%N /\ c = base64.encodeStd n.

(** A written character is no line break, no colon, and neither the first
    nor the last byte of the encoding of a white-space rune. *)
Definition ordinary (c : ascii) : bool :=
  negb (base64.isNewline c) && negb (Ascii.eqb c ":")
  && forallb (fun sp => match sp with
                        | String h _ => negb (Ascii.eqb h c)
                        | EmptyString => false
                        end)
       (strings.spaces ++ map strings.rev strings.spaces).

(** A list as the value of a Go map entry that exists only when something
    was appended. *)
Definition nonempty {A} (l : list A) : option (list A) :=
  match l with
  | [] => None
  | _ :: _ => Some l
  end.

(** No key of the map has the empty list. *)
Definition noEmpty {A} (m : gmap string (list A)) : Prop :=
  forall k l, m !! k = Some l -> l <> [].

Definition isDo (ev : Event) : Prop :=
  match ev with EvDo _ => True | _ => False end.

Definition isGetObject (ev : Event) : Prop :=
  match ev with EvGetObject _ _ _ => True | _ => False end.

Section DownloadMeasures.
Context {URL : Type} `{!Env URL}.

(** The events of asking the mirrors one after the other; [done] tells for
    each turn whether the context is cancelled by then. *)
Definition attempts (done : nat -> bool) (urls : list URL) : list Event :=
  concat (imap (fun i url => (callTorrentHttpProvider (done i) url).1) urls).


(** The mirrors that may still be asked. *)
Definition mirrorsLeft (s : Pass URL) : nat :=
  sum_list_with (fun e : string * list URL => length e.2) (pending s)
  + sum_list_with (fun tk : Task URL => length (tUrls tk)) (tasks s).

Definition isDoEvent (ev : Event) : bool :=
  match ev with EvDo _ => true | _ => false end.

(** The requests sent so far. *)
Definition requests (s : Pass URL) : nat :=
  length (List.filter (fun e : string * Event => isDoEvent e.2) (trace s)).

(** The bytes the pass may write: none (the empty [res] of line 272) or
    bytes the bencode decoder accepts. *)
Definition emptyOrValid (res : string) : Prop :=
  res = EmptyString \/ bencodeDecode res = true.

(** A name the pass works on: a key of the torrent map that is not of a
    family skipped by lines 137-143. *)
Definition fetched (d : WebSeeds URL) (name : string) : Prop :=
  is_Some (torrentUrls d !! name) /\ notSupportedYet name = false.

(** What holds all along a pass over the torrent map of [d] that is called
    with the files [fs0]. *)
Definition lawful (d : WebSeeds URL) (rootDir : string) (fs0 : FS)
    (s : Pass URL) : Prop :=
  (forall name urls, (name, urls) ∈ pending s -> torrentUrls d !! name = Some urls)
  /\ (forall tk, tk ∈ tasks s ->
        fetched d (taskName tk)
        /\ tPath tk = Join rootDir (taskName tk)
        /\ fs0 !! tPath tk = None)
  /\ (forall name ev, (name, ev) ∈ trace s -> fetched d name)
  /\ (forall p,
        files s !! p = fs0 !! p
        \/ (fs0 !! p = None
            /\ exists name res,
                 fetched d name /\ p = Join rootDir name
                 /\ files s !! p = Some res /\ emptyOrValid res)).

End DownloadMeasures.

Section LockingMore.
Context {URL : Type}.

(** Call [i] is inside its critical section. *)
Definition inside (progs : list (list (Locking.instr (URL:=URL))))
    (c : Locking.Config (URL:=URL)) (i : nat) : Prop :=
  exists prog pc, progs !! i = Some prog /\ Locking.pcs c !! i = Some pc
                  /\ (0 < pc < length prog)%nat.

(** Call [i] has not returned. *)
Definition unfinished (progs : list (list (Locking.instr (URL:=URL))))
    (c : Locking.Config (URL:=URL)) (i : nat) : Prop :=
  exists prog pc, progs !! i = Some prog /\ Locking.pcs c !! i = Some pc
                  /\ (pc < length prog)%nat.

End LockingMore.

Module ScenarioSkip.

(** A descriptor of a family that is not supported yet, with a good
    mirror, and no file on disk. *)
Definition d : WebSeeds string :=
  {| byFileName := ∅;
     torrentUrls :=
       <["history/commitment.0-32.v.torrent" :=
           ["https://good.example/a.seg.torrent"]]> ∅;
     downloadTorrentFile := true; chainName := "mainnet" |}.

Definition schedule : list (option (bool * nat)) := [None].

End ScenarioSkip.

Section LockingLast.
Context {URL : Type}.

(** Some publishing section has taken the mutex. *)
Definition publishing (progs : list (list (Locking.instr (URL:=URL))))
    (c : Locking.Config (URL:=URL)) : Prop :=
  exists i w t pc, progs !! i = Some (Locking.publishSection w t)
                   /\ Locking.pcs c !! i = Some pc /\ (0 < pc)%nat.

(** The pair of maps is the one of a publishing section. *)
Definition ofSection (progs : list (list (Locking.instr (URL:=URL))))
    (d : WebSeeds URL) : Prop :=
  Locking.publishSection (byFileName d) (torrentUrls d) ∈ progs.

End LockingLast.

(** * Properties *)

(** ** The token of an object-storage provider *)
Section TokenFacts.
Context {URL : Type} `{!Env URL}.

Lemma index_lookup {A} (l : list A) (i : nat) (x : A) :
  l !! i = Some x -> index l i = ret x.
Proof. intros Hl. unfold index. now rewrite Hl. Qed.

Lemma index_out_of_range {A} (l : list A) (i : nat) :
  (length l <= i)%nat -> index l i = ([], Panic i (length l)).
Proof.
  intros Hl. unfold index. now rewrite (lookup_ge_None_2 l i Hl).
Qed.

Lemma bind_ret {A B} (a : A) (f : A -> M B) : bind (ret a) f = f a.
Proof. unfold bind, ret. now destruct (f a). Qed.

Lemma Split_nonempty (s : string) (sep : ascii) :
  (1 <= length (strings.Split s sep))%nat.
Proof.
  induction s as [|c s IH]; simpl; [lia|].
  destruct (Ascii.eqb c sep); simpl; [lia|].
  destruct (strings.Split s sep); simpl in *; lia.
Qed.

(** A token that does not split into exactly two parts. *)
Lemma s3Credentials_not_two_parts (token : string) :
  length (strings.Split token ":") <> 2%nat ->
  s3Credentials token = fail ErrInvalidTokenFormat.
Proof.
  intros Hlen. unfold s3Credentials.
  destruct (Nat.eqb_spec (length (strings.Split token ":")) 2); [contradiction|].
  reflexivity.
Qed.

(** A token of two parts with another version than v1. *)
Lemma s3Credentials_version (token v p : string) :
  strings.Split token ":" = [v; p] ->
  strings.TrimSpace v <> "v1" ->
  s3Credentials token = fail (ErrNotSupportedVersion (strings.TrimSpace v)).
Proof.
  intros Hsplit Hv. unfold s3Credentials. rewrite Hsplit.
  cbn [length Nat.eqb negb].
  rewrite (index_lookup [v; p] 0 v), (index_lookup [v; p] 1 p), !bind_ret
    by reflexivity.
  cbv zeta.
  destruct (String.eqb_spec (strings.TrimSpace v) "v1"); [contradiction|].
  reflexivity.
Qed.

(** What happens after the payload has been decoded. *)
Lemma s3Credentials_decoded (token v p raw : string) :
  strings.Split token ":" = [v; p] ->
  strings.TrimSpace v = "v1" ->
  base64.DecodeString (strings.TrimSpace p) = Some raw ->
  s3Credentials token =
    let l := strings.Split raw ":" in
    let* l0 := index l 0 in
    let* l1 := index l 1 in
    let* l2 := index l 2 in
    if negb (length l =? 3)%nat then fail ErrInvalidCredentialsFormat
    else ret (strings.TrimSpace l0, strings.TrimSpace l1, strings.TrimSpace l2).
Proof.
  intros Hsplit Hv Hdec. unfold s3Credentials. rewrite Hsplit.
  cbn [length Nat.eqb negb].
  rewrite (index_lookup [v; p] 0 v), (index_lookup [v; p] 1 p), !bind_ret
    by reflexivity.
  cbv zeta. rewrite Hv, Hdec. cbn [String.eqb Ascii.eqb Bool.eqb negb orErr].
  rewrite bind_ret. reflexivity.
Qed.

Lemma s3Credentials_three_parts (token v p raw x y z : string) :
  strings.Split token ":" = [v; p] ->
  strings.TrimSpace v = "v1" ->
  base64.DecodeString (strings.TrimSpace p) = Some raw ->
  strings.Split raw ":" = [x; y; z] ->
  s3Credentials token =
    ret (strings.TrimSpace x, strings.TrimSpace y, strings.TrimSpace z).
Proof.
  intros Hsplit Hv Hdec Hraw.
  rewrite (s3Credentials_decoded token v p raw Hsplit Hv Hdec), Hraw.
  reflexivity.
Qed.

(** Fewer than three parts: the index expression of line 219 that is out
    of range panics, before line 220 is reached. *)
Lemma s3Credentials_short_payload (token v p raw : string) :
  strings.Split token ":" = [v; p] ->
  strings.TrimSpace v = "v1" ->
  base64.DecodeString (strings.TrimSpace p) = Some raw ->
  (length (strings.Split raw ":") < 3)%nat ->
  s3Credentials token =
    ([], Panic (length (strings.Split raw ":")) (length (strings.Split raw ":"))).
Proof.
  intros Hsplit Hv Hdec Hlen.
  rewrite (s3Credentials_decoded token v p raw Hsplit Hv Hdec).
  pose proof (Split_nonempty raw ":") as Hne.
  destruct (strings.Split raw ":") as [|a [|b [|c l]]]; simpl in *; try lia;
    reflexivity.
Qed.

(** More than three parts: the format error of line 221. *)
Lemma s3Credentials_long_payload (token v p raw : string) :
  strings.Split token ":" = [v; p] ->
  strings.TrimSpace v = "v1" ->
  base64.DecodeString (strings.TrimSpace p) = Some raw ->
  (3 < length (strings.Split raw ":"))%nat ->
  s3Credentials token = fail ErrInvalidCredentialsFormat.
Proof.
  intros Hsplit Hv Hdec Hlen.
  rewrite (s3Credentials_decoded token v p raw Hsplit Hv Hdec).
  destruct (strings.Split raw ":") as [|a [|b [|c [|e l]]]]; simpl in *; try lia;
    reflexivity.
Qed.

End TokenFacts.

(** C7: the token ["v1:" + base64("acc:key:secret")] resolves to
    accountId "acc", accessKeyId "key", accessKeySecret "secret", and every
    field taken from a well-formed token is the part with its white space
    trimmed; a token of two parts whose version is not "v1" fails with the
    unsupported-version error; a token that does not split on [':'] into
    exactly two parts fails with the format error. *)
Theorem C7_token_decode :
  s3Credentials ("v1:" +:+ base64.EncodeToString "acc:key:secret")
    = ret ("acc", "key", "secret")
  /\ s3Credentials (" v1 :" +:+ base64.EncodeToString " acc :	key: secret
")
    = ret ("acc", "key", "secret")
  /\ (forall token v p raw x y z : string,
        strings.Split token ":" = [v; p] ->
        strings.TrimSpace v = "v1" ->
        base64.DecodeString (strings.TrimSpace p) = Some raw ->
        strings.Split raw ":" = [x; y; z] ->
        s3Credentials token
          = ret (strings.TrimSpace x, strings.TrimSpace y, strings.TrimSpace z))
  /\ (forall token v p : string,
        strings.Split token ":" = [v; p] ->
        strings.TrimSpace v <> "v1" ->
        s3Credentials token = fail (ErrNotSupportedVersion (strings.TrimSpace v)))
  /\ (forall token : string,
        length (strings.Split token ":") <> 2%nat ->
        s3Credentials token = fail ErrInvalidTokenFormat).
Proof.
  split; [vm_compute; reflexivity|].
  split; [vm_compute; reflexivity|].
  split; [exact s3Credentials_three_parts|].
  split; [exact s3Credentials_version | exact s3Credentials_not_two_parts].
Qed.

(** The general cases of [C7_token_decode] at the tokens
    ["v1:YWNjOmtleTpzZWNyZXQ="], ["v2:YWNjOmtleTpzZWNyZXQ="] and ["v1"]. *)
Lemma C7_token_decode_witness :
  s3Credentials "v1:YWNjOmtleTpzZWNyZXQ=" = ret ("acc", "key", "secret")
  /\ s3Credentials "v2:YWNjOmtleTpzZWNyZXQ=" = fail (ErrNotSupportedVersion "v2")
  /\ s3Credentials "v1" = fail ErrInvalidTokenFormat.
Proof.
  destruct C7_token_decode as (_ & _ & Hok & Hver & Hfmt).
  split; [|split].
  - apply (Hok "v1:YWNjOmtleTpzZWNyZXQ=" "v1" "YWNjOmtleTpzZWNyZXQ="
             "acc:key:secret" "acc" "key" "secret"); vm_compute; reflexivity.
  - apply (Hver "v2:YWNjOmtleTpzZWNyZXQ=" "v2" "YWNjOmtleTpzZWNyZXQ=");
      [vm_compute; reflexivity | vm_compute; discriminate].
  - apply (Hfmt "v1"). vm_compute. discriminate.
Defined.

(** C2: the token ["v1:" + base64("acc:key")] is of version "v1" and its
    payload decodes, to two parts; resolving it does not return the format
    error but panics with an index out of range, [l[2]] being read on line
    219 before the length is checked on line 220.  So does a payload of one
    part. *)
Theorem C2_short_payload_panics :
  base64.DecodeString "YWNjOmtleQ==" = Some "acc:key"
  /\ s3Credentials "v1:YWNjOmtleQ==" = ([], Panic 2 2)
  /\ s3Credentials ("v1:" +:+ base64.EncodeToString "acc") = ([], Panic 1 1).
Proof. repeat split; vm_compute; reflexivity. Qed.

(** ** The merge of the collected documents *)
Section MergeFacts.
Context {URL : Type} `{!Env URL}.

Implicit Types (w : WebSeedUrls) (t : TorrentUrls URL) (name wUrl : string).





(** The lists of the other names are not touched by an entry. *)
Lemma mergeEntry_other (acc : WebSeedUrls * TorrentUrls URL) name wUrl other :
  name <> other ->
  (mergeEntry acc (name, wUrl)).1 !! other = acc.1 !! other
  /\ (mergeEntry acc (name, wUrl)).2 !! other = acc.2 !! other.
Proof.
  intros Hne. destruct acc as [w t]. unfold mergeEntry.
  destruct (strings.HasSuffix name ".torrent");
    [destruct (ParseRequestURI wUrl)|]; cbn [fst snd];
    rewrite ?lookup_insert_ne by done; done.
Qed.

(** The list of the entry's name grows by what the entry adds. *)
Lemma mergeEntry_same (acc : WebSeedUrls * TorrentUrls URL) name wUrl :
  (mergeEntry acc (name, wUrl)).1 !!! name
    = acc.1 !!! name ++ webSeedOf name (Some wUrl)
  /\ (mergeEntry acc (name, wUrl)).2 !!! name
    = acc.2 !!! name ++ torrentOf name (Some wUrl).
Proof.
  destruct acc as [w t]. unfold mergeEntry, webSeedOf, torrentOf.
  destruct (strings.HasSuffix name ".torrent"); cbn [mbind option_bind].
  - destruct (ParseRequestURI wUrl); cbn [fst snd option_list];
      rewrite ?lookup_total_insert_eq, ?app_nil_r; done.
  - cbn [fst snd option_list].
    rewrite lookup_total_insert_eq, ?app_nil_r; done.
Qed.

(** One document, ranged over in any order: a name gets what its entry
    in the document adds. *)
Lemma fold_mergeEntry_lookup (es : list (string * string)) :
  NoDup es.*1 ->
  forall (acc : WebSeedUrls * TorrentUrls URL) name,
    (fold_left mergeEntry es acc).1 !!! name
      = acc.1 !!! name
        ++ webSeedOf name ((list_to_map es : gmap string string) !! name)
    /\ (fold_left mergeEntry es acc).2 !!! name
      = acc.2 !!! name
        ++ torrentOf name ((list_to_map es : gmap string string) !! name).
Proof.
  induction es as [|[n u] es IH]; intros Hnd acc name.
  - cbn [fold_left list_to_map foldr]. rewrite lookup_empty.
    unfold webSeedOf, torrentOf.
    destruct (strings.HasSuffix name ".torrent"); cbn;
      rewrite !app_nil_r; done.
  - apply NoDup_cons in Hnd as [Hn Hnd].
    cbn [fold_left]. destruct (IH Hnd (mergeEntry acc (n, u)) name) as [Hw Ht].
    rewrite Hw, Ht. rewrite list_to_map_cons.
    destruct (decide (n = name)) as [->|Hne].
    + rewrite lookup_insert_eq.
      rewrite (not_elem_of_list_to_map_1 (M:=gmap string) es name Hn).
      destruct (mergeEntry_same acc name u) as [-> ->].
      unfold webSeedOf at 2, torrentOf at 2.
      destruct (strings.HasSuffix name ".torrent"); cbn;
        rewrite !app_nil_r; done.
    + rewrite lookup_insert_ne by done.
      destruct (mergeEntry_other acc n u name Hne) as [Hw' Ht'].
      rewrite !lookup_total_alt, Hw', Ht'. done.
Qed.

(** The documents of [lst], in the order of [lst]. *)
Lemma mergeList_lookup (lst : list WebSeedsFromProvider) :
  forall (i : nat) (acc : WebSeedUrls * TorrentUrls URL) name,
    (mergeList i lst acc).1 !!! name
      = acc.1 !!! name ++ concat ((fun doc => webSeedOf name (doc !! name)) <$> lst)
    /\ (mergeList i lst acc).2 !!! name
      = acc.2 !!! name ++ concat ((fun doc => torrentOf name (doc !! name)) <$> lst).
Proof.
  induction lst as [|doc lst IH]; intros i acc name.
  - cbn. rewrite !app_nil_r. done.
  - cbn [mergeList fmap list_fmap concat].
    destruct (IH (S i) (fold_left mergeEntry (rangeOrder i doc) acc) name)
      as [-> ->].
    pose proof (rangeOrder_perm i doc) as Hperm.
    assert (NoDup (rangeOrder i doc).*1) as Hnd.
    { rewrite Hperm. apply NoDup_fst_map_to_list. }
    destruct (fold_mergeEntry_lookup _ Hnd acc name) as [-> ->].
    rewrite (list_to_map_proper (M:=gmap string) _ _ Hnd Hperm).
    rewrite list_to_map_to_list, <- !app_assoc. done.
Qed.




End MergeFacts.

(** ** The visits of the providers *)
Section VisitsFacts.
Context {URL : Type} `{!Env URL}.

Lemma bind_ext {A B} (m : M A) (f g : A -> M B) :
  (forall a, f a = g a) -> bind m f = bind m g.
Proof.
  intros Hfg. destruct m as [t [a|e|i n]]; cbn [bind]; try done.
  now rewrite Hfg.
Qed.

Lemma httpLoop_collectAll (httpProviders : list URL) :
  forall i lst,
    httpLoop i httpProviders lst = collectAll (httpCalls i httpProviders) lst.
Proof.
  induction httpProviders as [|u ps IH]; intros i lst; [done|].
  unfold httpCalls. rewrite imap_cons. cbn [httpLoop collectAll].
  rewrite Nat.add_0_r.
  assert (collectAll (imap ((fun k u0 => callHttpProvider (ctxDone (i + k)) u0) ∘ S) ps)
          = collectAll (httpCalls (S i) ps)) as ->.
  { f_equal. apply imap_ext. intros k x _. cbn. now rewrite Nat.add_succ_r. }
  destruct (selectDone (ctxDone i)); apply bind_ext; intros l; apply IH.
Qed.

Lemma s3Loop_collectAll (d : WebSeeds URL) (s3Providers : list string) :
  forall i lst,
    s3Loop d i s3Providers lst = collectAll (s3Calls d i s3Providers) lst.
Proof.
  induction s3Providers as [|u ps IH]; intros i lst; [done|].
  unfold s3Calls. rewrite imap_cons. cbn [s3Loop collectAll].
  rewrite Nat.add_0_r.
  assert (collectAll (imap ((fun k u0 => callS3Provider d (ctxDone (i + k)) u0) ∘ S) ps)
          = collectAll (s3Calls d (S i) ps)) as ->.
  { f_equal. apply imap_ext. intros k x _. cbn. now rewrite Nat.add_succ_r. }
  destruct (selectDone (ctxDone i)); apply bind_ext; intros l; apply IH.
Qed.

Lemma diskLoop_collectAll (diskProviders : list string) :
  forall lst, diskLoop diskProviders lst = collectAll (diskCalls diskProviders) lst.
Proof.
  induction diskProviders as [|f fs IH]; intros lst; [done|].
  cbn [diskLoop diskCalls fmap list_fmap collectAll].
  apply bind_ext; intros l; apply IH.
Qed.

Lemma collectAll_app (c1 c2 : list (M WebSeedsFromProvider)) :
  forall lst,
    collectAll (c1 ++ c2) lst = let* l := collectAll c1 lst in collectAll c2 l.
Proof.
  induction c1 as [|r c1 IH]; intros lst.
  - cbn [app collectAll]. unfold bind, ret. now destruct (collectAll c2 lst).
  - cbn [app collectAll].
    destruct r as [t [doc|e|i n]]; cbn [collect bind]; try done.
    + rewrite IH. unfold bind.
      destruct (collectAll c1 (lst ++ [doc])) as [t1 [l1|e1|i1 n1]]; try done.
      destruct (collectAll c2 l1) as [t2 r2]. now rewrite app_assoc.
    + rewrite IH. unfold bind.
      destruct (collectAll c1 lst) as [t1 [l1|e1|i1 n1]]; try done.
      destruct (collectAll c2 l1) as [t2 r2]. now rewrite app_assoc.
Qed.

Lemma collectProviders_visits (d : WebSeeds URL) (s3Providers : list string)
    (httpProviders : list URL) (diskProviders : list string) :
  collectProviders d s3Providers httpProviders diskProviders
  = collectAll (visits d s3Providers httpProviders diskProviders) [].
Proof.
  unfold collectProviders, visits. rewrite collectAll_app.
  rewrite httpLoop_collectAll. apply bind_ext; intros l.
  rewrite collectAll_app, s3Loop_collectAll. apply bind_ext; intros l'.
  apply diskLoop_collectAll.
Qed.

(** When the loops return, they have made every call and collected the
    documents of those that returned one, in the order of the calls. *)
Lemma collectAll_Ok (calls : list (M WebSeedsFromProvider)) :
  forall lst tr lst',
    collectAll calls lst = (tr, Ok lst') ->
    tr = concat (fst <$> calls) /\ lst' = lst ++ concat (okDoc <$> calls).
Proof.
  induction calls as [|r calls IH]; intros lst tr lst' Hrun.
  - cbn in Hrun. injection Hrun as <- <-. cbn. now rewrite app_nil_r.
  - cbn [collectAll] in Hrun.
    destruct r as [t [doc|e|i n]]; cbn [collect bind] in Hrun; try done.
    + destruct (collectAll calls (lst ++ [doc])) as [t1 r1] eqn:Hrest.
      injection Hrun as <- ->.
      destruct (IH _ _ _ Hrest) as [-> ->].
      cbn. now rewrite <- app_assoc.
    + destruct (collectAll calls lst) as [t1 r1] eqn:Hrest.
      injection Hrun as <- ->.
      destruct (IH _ _ _ Hrest) as [-> ->]. done.
Qed.

(** The loops return unless a call panics. *)
Lemma collectAll_returns (calls : list (M WebSeedsFromProvider)) :
  Forall (fun r => ~ panics r) calls ->
  forall lst,
    collectAll calls lst
    = (concat (fst <$> calls), Ok (lst ++ concat (okDoc <$> calls))).
Proof.
  induction 1 as [|r calls Hr _ IH]; intros lst.
  - cbn. now rewrite app_nil_r.
  - cbn [collectAll].
    destruct r as [t [doc|e|i n]]; cbn [collect bind]; [| |now destruct Hr].
    + rewrite IH. cbn. now rewrite <- app_assoc.
    + rewrite IH. done.
Qed.

Lemma failed_no_doc (r : M WebSeedsFromProvider) :
  failed r -> ~ panics r /\ okDoc r = [].
Proof. destruct r as [t [doc|e|i n]]; cbn; tauto. Qed.

Lemma concat_failed (calls : list (M WebSeedsFromProvider)) :
  Forall failed calls -> concat (okDoc <$> calls) = [].
Proof.
  induction 1 as [|r calls Hr _ IH]; [done|].
  cbn. rewrite IH. now destruct (failed_no_doc r Hr) as [_ ->].
Qed.

(** The pass returns exactly when the loops do, with the merge of what
    they collected. *)
Lemma downloadWebseedTomlFromProviders_collect (d : WebSeeds URL)
    (s3Providers : list string) (httpProviders : list URL)
    (diskProviders : list string) tr lst :
  collectProviders d s3Providers httpProviders diskProviders = (tr, Ok lst) ->
  downloadWebseedTomlFromProviders d s3Providers httpProviders diskProviders
  = (tr, Ok (publish (mergeList 0 lst (∅, ∅)).1 (mergeList 0 lst (∅, ∅)).2 d)).
Proof.
  intros Hc. unfold downloadWebseedTomlFromProviders. rewrite Hc.
  cbn [bind]. destruct (mergeList 0 lst (∅, ∅)) as [w t].
  cbn. now rewrite app_nil_r.
Qed.

Lemma downloadWebseedTomlFromProviders_Ok (d : WebSeeds URL)
    (s3Providers : list string) (httpProviders : list URL)
    (diskProviders : list string) tr d' :
  downloadWebseedTomlFromProviders d s3Providers httpProviders diskProviders
    = (tr, Ok d') ->
  exists lst,
    collectProviders d s3Providers httpProviders diskProviders = (tr, Ok lst)
    /\ d' = publish (mergeList 0 lst (∅, ∅)).1 (mergeList 0 lst (∅, ∅)).2 d.
Proof.
  intros Hrun.
  destruct (collectProviders d s3Providers httpProviders diskProviders)
    as [t [lst|e|i n]] eqn:Hc.
  - rewrite (downloadWebseedTomlFromProviders_collect _ _ _ _ _ _ Hc) in Hrun.
    injection Hrun as <- <-. now exists lst.
  - unfold downloadWebseedTomlFromProviders in Hrun. rewrite Hc in Hrun. done.
  - unfold downloadWebseedTomlFromProviders in Hrun. rewrite Hc in Hrun. done.
Qed.

Lemma concat_option_list {A B} (f : A -> option B) (l : list A) :
  concat ((fun x => option_list (f x)) <$> l) = omap f l.
Proof.
  induction l as [|x l IH]; [done|].
  cbn. rewrite IH. now destruct (f x).
Qed.

End VisitsFacts.

Example scenario_pass :
  @downloadWebseedTomlFromProviders _ Scenario.running Scenario.d0
    Scenario.s3Providers Scenario.httpProviders Scenario.diskProviders
  = ([EvDo "https://one.example/webseeds.toml";
      EvDo "https://down.example/webseeds.toml";
      EvGetObject "acc" "erigon-v3-snapshots-mainnet-webseed" "webseeds.toml";
      EvReadFile "/etc/erigon/webseeds.toml"],
     Ok (Build_WebSeeds
           (<["a.seg" := ["https://one.example/a.seg"; "https://two.example/a.seg";
                          "https://three.example/a.seg"]]> ∅)
           (<["a.seg.torrent" := ["https://one.example/a.seg.torrent";
                                  "https://two.example/a.seg.torrent"]]> ∅)
           true "mainnet")).
Proof. vm_compute. reflexivity. Qed.

(** ** The published maps *)
Section PublishedFacts.
Context {URL : Type} `{!Env URL}.

(** No call of an HTTP provider or of a local file panics. *)
Lemma callHttpProvider_no_panic (done : bool) (u : URL) :
  ~ panics (callHttpProvider done u).
Proof.
  unfold callHttpProvider, panics.
  destruct (NewRequest (URL_String u)); [|cbn; tauto].
  destruct (Do done (URL_String u)) as [resp|]; [|cbn; tauto].
  cbn. destruct (Body resp ≫= tomlDecode); cbn; tauto.
Qed.

Lemma readWebSeedsFile_no_panic (path : string) :
  ~ panics (readWebSeedsFile path).
Proof.
  unfold readWebSeedsFile, panics.
  destruct (ReadFile path) as [data|]; [|cbn; tauto].
  cbn. destruct (tomlDecode data); cbn; tauto.
Qed.

(** A request that can be built is sent, whatever the context. *)
Lemma callHttpProvider_trace (done : bool) (u : URL) :
  NewRequest (URL_String u) = true ->
  (callHttpProvider done u).1 = [EvDo (URL_String u)].
Proof.
  intros Hreq. unfold callHttpProvider. rewrite Hreq.
  destruct (Do done (URL_String u)) as [resp|]; [|done].
  cbn. destruct (Body resp ≫= tomlDecode); done.
Qed.

(** The loop of lines 53-65 sends the request of every HTTP provider,
    cancelled context or not. *)
Lemma httpLoop_requests (httpProviders : list URL) (i : nat)
    (lst : list WebSeedsFromProvider) :
  Forall (fun u => NewRequest (URL_String u) = true) httpProviders ->
  (httpLoop i httpProviders lst).1 = (fun u => EvDo (URL_String u)) <$> httpProviders.
Proof.
  intros Hreq. rewrite httpLoop_collectAll, collectAll_returns.
  - cbn [fst]. revert i.
    induction Hreq as [|u ps Hu _ IH]; intros i; [done|].
    unfold httpCalls. rewrite imap_cons. cbn [fmap list_fmap concat].
    rewrite (callHttpProvider_trace _ u Hu). cbn [app]. f_equal.
    rewrite <- (IH (S i)). do 2 f_equal. apply imap_ext.
    intros k x _. cbn. now rewrite Nat.add_succ_r.
  - unfold httpCalls. clear Hreq. revert i.
    induction httpProviders as [|u ps IH]; intros i; [constructor|].
    rewrite imap_cons. constructor; [apply callHttpProvider_no_panic|].
    rewrite (imap_ext _ (fun k u0 => callHttpProvider (ctxDone (S i + k)) u0));
      [apply IH|].
    intros k x _. cbn. now rewrite Nat.add_succ_r.
Qed.

(** The lists of a name after a pass that returns. *)
Lemma published_lists (d d' : WebSeeds URL) (s3Providers : list string)
    (httpProviders : list URL) (diskProviders : list string)
    (tr : list Event) (name : string) :
  downloadWebseedTomlFromProviders d s3Providers httpProviders diskProviders
    = (tr, Ok d') ->
  let docs := concat (okDoc <$> visits d s3Providers httpProviders diskProviders) in
  byFileName d' !!! name = concat ((fun doc => webSeedOf name (doc !! name)) <$> docs)
  /\ torrentUrls d' !!! name = concat ((fun doc => torrentOf name (doc !! name)) <$> docs).
Proof.
  intros Hrun docs.
  destruct (downloadWebseedTomlFromProviders_Ok _ _ _ _ _ _ Hrun) as (lst & Hc & ->).
  rewrite collectProviders_visits in Hc.
  destruct (collectAll_Ok _ _ _ _ Hc) as [_ ->].
  rewrite app_nil_l. fold docs. cbn [publish byFileName torrentUrls].
  destruct (mergeList_lookup docs 0 (∅, ∅) name) as [-> ->].
  cbn [fst snd]. rewrite !lookup_total_empty. done.
Qed.

End PublishedFacts.



(** C6: after a pass that returns, the published list of a name holds the
    url that every provider's document has for the name, none replacing
    another, in the order HTTP providers, object-storage providers,
    local-file providers: as raw strings in the webseed map for a name
    without the suffix ".torrent", and as parsed URLs in the torrent map for
    a name with it (there an url that does not parse is left out, see C5). *)
Theorem C6_append_in_visit_order {URL : Type} `{!Env URL}
    (d d' : WebSeeds URL) (s3Providers : list string)
    (httpProviders : list URL) (diskProviders : list string)
    (tr : list Event) (name : string) :
  downloadWebseedTomlFromProviders d s3Providers httpProviders diskProviders
    = (tr, Ok d') ->
  let docs := concat (okDoc <$> (httpCalls 0 httpProviders
                                 ++ s3Calls d (length httpProviders) s3Providers
                                 ++ diskCalls diskProviders)) in
  (strings.HasSuffix name ".torrent" = false ->
     byFileName d' !!! name = omap (fun doc => doc !! name) docs)
  /\ (strings.HasSuffix name ".torrent" = true ->
     torrentUrls d' !!! name
       = omap (fun doc => doc !! name ≫= ParseRequestURI) docs).
Proof.
  intros Hrun docs.
  destruct (published_lists d d' _ _ _ tr name Hrun) as [Hw Ht].
  fold (visits d s3Providers httpProviders diskProviders) in docs.
  fold docs in Hw, Ht.
  split; intros Hs.
  - rewrite Hw. unfold webSeedOf. rewrite Hs. apply concat_option_list.
  - rewrite Ht. unfold torrentOf. rewrite Hs.
    apply (concat_option_list (fun doc => doc !! name ≫= ParseRequestURI)).
Qed.

(** [C6_append_in_visit_order] on the pass of [Scenario]: the three
    providers have "a.seg", two of them "a.seg.torrent". *)
Lemma C6_append_in_visit_order_witness :
  match (@downloadWebseedTomlFromProviders _ Scenario.running Scenario.d0
           Scenario.s3Providers Scenario.httpProviders Scenario.diskProviders).2
  with
  | Ok d' =>
      byFileName d' !!! "a.seg"
        = ["https://one.example/a.seg"; "https://two.example/a.seg";
           "https://three.example/a.seg"]
      /\ torrentUrls d' !!! "a.seg.torrent"
        = ["https://one.example/a.seg.torrent"; "https://two.example/a.seg.torrent"]
  | _ => False
  end.
Proof.
  destruct (@downloadWebseedTomlFromProviders _ Scenario.running Scenario.d0
              Scenario.s3Providers Scenario.httpProviders
              Scenario.diskProviders) as [tr [d'|e|i n]] eqn:Hpass; cbn [snd].
  - split.
    + rewrite (proj1 (@C6_append_in_visit_order _ Scenario.running _ _ _ _ _ _
                        "a.seg" Hpass)); vm_compute; reflexivity.
    + rewrite (proj2 (@C6_append_in_visit_order _ Scenario.running _ _ _ _ _ _
                        "a.seg.torrent" Hpass)); vm_compute; reflexivity.
  - rewrite scenario_pass in Hpass. discriminate Hpass.
  - rewrite scenario_pass in Hpass. discriminate Hpass.
Defined.

(** C8: when the call of every configured provider returns an error, the
    pass returns without one, and the published maps are both empty,
    whatever was published before; the download pass that [Discover] runs
    next returns at once. *)
Theorem C8_all_providers_fail {URL : Type} `{!Env URL}
    (d : WebSeeds URL) (s3Providers : list string)
    (httpProviders : list URL) (diskProviders : list string) :
  Forall failed (httpCalls 0 httpProviders
                 ++ s3Calls d (length httpProviders) s3Providers
                 ++ diskCalls diskProviders) ->
  exists tr d',
    downloadWebseedTomlFromProviders d s3Providers httpProviders diskProviders
      = (tr, Ok d')
    /\ d' = {| byFileName := ∅; torrentUrls := ∅;
               downloadTorrentFile := downloadTorrentFile d;
               chainName := chainName d |}
    /\ forall rootDir fs s, passes d' rootDir fs s -> s = start [] fs.
Proof.
  intros Hfail.
  fold (visits d s3Providers httpProviders diskProviders) in Hfail.
  exists (concat (fst <$> visits d s3Providers httpProviders diskProviders)).
  eexists. split; [|split; [reflexivity|]].
  - apply downloadWebseedTomlFromProviders_collect with (lst := []).
    rewrite collectProviders_visits, collectAll_returns.
    + now rewrite (concat_failed _ Hfail).
    + eapply Forall_impl; [exact Hfail|]. intros r Hr.
      exact (proj1 (failed_no_doc r Hr)).
  - intros rootDir fs s. unfold passes. cbn [torrentUrls downloadTorrentFile].
    rewrite map_size_empty. cbn [Nat.eqb]. now rewrite orb_true_r.
Qed.

(** [C8_all_providers_fail] on a server that is down, a token of version
    v2 and a file that does not exist, after a pass that had published
    something. *)
Lemma C8_all_providers_fail_witness :
  exists tr d',
    @downloadWebseedTomlFromProviders _ Scenario.running
      {| byFileName := <["a.seg" := ["https://one.example/a.seg"]]> ∅;
         torrentUrls := <["a.seg.torrent" := ["https://one.example/a.seg.torrent"]]> ∅;
         downloadTorrentFile := true; chainName := "mainnet" |}
      ["v2:YWNjOmtleTpzZWNyZXQ="] ["https://down.example/webseeds.toml"]
      ["/etc/erigon/none.toml"]
    = (tr, Ok d')
    /\ d' = {| byFileName := ∅; torrentUrls := ∅;
               downloadTorrentFile := true; chainName := "mainnet" |}
    /\ forall rootDir fs s,
         @passes _ Scenario.running d' rootDir fs s -> s = start [] fs.
Proof.
  apply (@C8_all_providers_fail _ Scenario.running
           {| byFileName := <["a.seg" := ["https://one.example/a.seg"]]> ∅;
              torrentUrls := <["a.seg.torrent" := ["https://one.example/a.seg.torrent"]]> ∅;
              downloadTorrentFile := true; chainName := "mainnet" |}).
  repeat (apply Forall_cons_2; [vm_compute; exact I|]). apply Forall_nil_2.
Defined.

(** C3: the context is cancelled before the pass starts and stays so; the
    pass still sends the request of both HTTP providers and asks the object
    store for the document.  The [break] of lines 56 and 69 leaves the
    [select] statement, not the loop. *)
Theorem C3_cancelled_pass_still_fetches :
  (forall i, @ctxDone _ Scenario.cancelled i = true)
  /\ (@downloadWebseedTomlFromProviders _ Scenario.cancelled Scenario.d0
        Scenario.s3Providers Scenario.httpProviders []).1
     = [EvDo "https://one.example/webseeds.toml";
        EvDo "https://down.example/webseeds.toml";
        EvGetObject "acc" "erigon-v3-snapshots-mainnet-webseed" "webseeds.toml"].
Proof. split; [reflexivity | vm_compute; reflexivity]. Qed.

(** ** The download pass *)
Section DownloadFacts.
Context {URL : Type} `{!Env URL}.


(** A response stopped by line 271: no error, no bytes, the body is not
    read. *)
Lemma callTorrentHttpProvider_gate (done : bool) (url : URL) (resp : Response) :
  NewRequest (URL_String url) = true ->
  Do done (URL_String url) = Some resp ->
  tooSmallOrTooBig (ContentLength resp) = true ->
  callTorrentHttpProvider done url = ([EvDo (URL_String url)], Ok EmptyString).
Proof.
  intros Hreq Hdo Hgate. unfold callTorrentHttpProvider.
  rewrite Hreq, Hdo. cbn. now rewrite Hgate.
Qed.


(** The turn of the task for a response stopped by line 271: [err] is
    nil, so lines 153-158 run with the empty [res]. *)
Lemma tryMirror_gate (done : bool) (tPath : string) (url : URL) (fs : FS)
    (resp : Response) :
  NewRequest (URL_String url) = true ->
  Do done (URL_String url) = Some resp ->
  tooSmallOrTooBig (ContentLength resp) = true ->
  tryMirror done tPath url fs
  = ([EvDo (URL_String url); EvSave tPath EmptyString],
     (saveTorrent tPath EmptyString fs).1,
     match (saveTorrent tPath EmptyString fs).2 with
     | None => ReturnNil
     | Some _ => Continue
     end).
Proof.
  intros Hreq Hdo Hgate. unfold tryMirror.
  rewrite (callTorrentHttpProvider_gate done url resp Hreq Hdo Hgate).
  now destruct (saveTorrent tPath EmptyString fs) as [fs' [e|]].
Qed.

(** A turn changes no other file than the one at [tPath]. *)
Lemma tryMirror_files (done : bool) (tPath : string) (url : URL) (fs fs' : FS)
    (t : list Event) (r : turn) (p : string) :
  tryMirror done tPath url fs = (t, fs', r) ->
  p <> tPath -> fs' !! p = fs !! p.
Proof.
  unfold tryMirror, saveTorrent. intros Hturn Hp.
  destruct (callTorrentHttpProvider done url) as [t0 [res|e|i n]].
  - destruct (canPersist tPath); injection Hturn as <- <- <-; [|done].
    now rewrite lookup_insert_ne.
  - now injection Hturn as <- <- <-.
  - now injection Hturn as <- <- <-.
Qed.

Lemma run_rtc (rootDir : string) (schedule : list (option (bool * nat))) :
  forall s s', run rootDir schedule s = Some s' -> rtc (step rootDir) s s'.
Proof.
  induction schedule as [|[[done i]|] rest IH]; intros s s' Hrun; cbn in Hrun.
  - injection Hrun as <-. constructor.
  - destruct (taskStep done i s) as [s1|] eqn:Hstep; [|done].
    eapply rtc_l; [right; eauto | now apply IH].
  - destruct (loopStep rootDir s) as [s1|] eqn:Hstep; [|done].
    eapply rtc_l; [left; eauto | now apply IH].
Qed.

Lemma kept_start (rootDir : string) (fs0 : FS) (order : list (string * list URL)) :
  kept rootDir fs0 (start order fs0).
Proof.
  split; [done|]. split; cbn.
  - intros tk Htk. now apply elem_of_nil in Htk.
  - intros n ev Hin. now apply elem_of_nil in Hin.
Qed.

Lemma FileExist_false (fs : FS) (path : string) :
  FileExist fs path = false -> fs !! path = None.
Proof.
  unfold FileExist. rewrite bool_decide_eq_false. apply eq_None_not_Some.
Qed.

Lemma FileExist_true (fs : FS) (path : string) :
  FileExist fs path = true -> exists c, fs !! path = Some c.
Proof. unfold FileExist. rewrite bool_decide_eq_true. now intros [c ?]; exists c. Qed.

Lemma kept_loopStep (rootDir : string) (fs0 : FS) (s s' : Pass URL) :
  kept rootDir fs0 s -> loopStep rootDir s = Some s' -> kept rootDir fs0 s'.
Proof.
  intros (Hfiles & Htasks & Htrace) Hstep. unfold loopStep in Hstep.
  destruct (pending s) as [|[name urls] rest]; [done|].
  destruct (FileExist (files s) (Join rootDir name)) eqn:Hex;
    [injection Hstep as <-; exact (conj Hfiles (conj Htasks Htrace))|].
  destruct (notSupportedYet name); injection Hstep as <-;
    [exact (conj Hfiles (conj Htasks Htrace))|].
  split; [exact Hfiles|]. split; [|exact Htrace].
  cbn [tasks]. intros tk [Htk|Htk]%elem_of_app; [now apply Htasks|].
  apply list_elem_of_singleton in Htk as ->. cbn. split; [|done].
  destruct (fs0 !! Join rootDir name) as [c|] eqn:Hfs0; [|done].
  apply FileExist_false in Hex. now rewrite (Hfiles _ _ Hfs0) in Hex.
Qed.

Lemma elem_of_list_insert_inv {A} (l : list A) (i : nat) (x y : A) :
  y ∈ <[i:=x]> l -> y = x \/ y ∈ l.
Proof.
  revert i. induction l as [|a l IH]; intros [|i]; cbn; intros Hin.
  - now right. - now right.
  - apply elem_of_cons in Hin as [->|Hin]; [now left|].
    right. now apply elem_of_cons; right.
  - apply elem_of_cons in Hin as [->|Hin].
    + right. now apply elem_of_cons; left.
    + destruct (IH i Hin) as [->|Hl]; [now left|].
      right. now apply elem_of_cons; right.
Qed.

Lemma kept_taskStep (rootDir : string) (fs0 : FS) (done : bool) (i : nat)
    (s s' : Pass URL) :
  kept rootDir fs0 s -> taskStep done i s = Some s' -> kept rootDir fs0 s'.
Proof.
  intros (Hfiles & Htasks & Htrace) Hstep. unfold taskStep in Hstep.
  destruct (tasks s !! i) as [tk|] eqn:Hi; [|done].
  pose proof (Htasks tk (list_elem_of_lookup_2 _ _ _ Hi)) as [Hnew Hpath].
  destruct (tUrls tk) as [|url rest].
  { injection Hstep as <-. split; [exact Hfiles|]. split; [|exact Htrace].
    cbn [tasks]. intros tk' Htk'. apply Htasks.
    now apply list_elem_of_delete_inv in Htk'. }
  destruct (tryMirror done (tPath tk) url (files s)) as [[t fs'] r] eqn:Hturn.
  injection Hstep as <-. split; [|split].
  - cbn [files]. intros p c Hp.
    rewrite (tryMirror_files _ _ _ _ _ _ _ p Hturn); [now apply Hfiles|].
    intros ->. congruence.
  - cbn [tasks]. intros tk' Htk'.
    destruct r; [|apply Htasks; now apply list_elem_of_delete_inv in Htk'..].
    apply elem_of_list_insert_inv in Htk' as [->|Htk']; [now cbn|now apply Htasks].
  - cbn [trace]. intros n ev [Hin|Hin]%elem_of_app; [now apply (Htrace n ev)|].
    apply list_elem_of_fmap in Hin as (ev' & [= -> ->] & _).
    now rewrite <- Hpath.
Qed.

Lemma kept_passes (d : WebSeeds URL) (rootDir : string) (fs0 : FS) (s : Pass URL) :
  passes d rootDir fs0 s -> kept rootDir fs0 s.
Proof.
  unfold passes.
  destruct (negb (downloadTorrentFile d) || (size (torrentUrls d) =? 0)%nat).
  - intros ->. apply kept_start.
  - intros (order & _ & Hrun).
    apply (rtc_ind_r (R:=step rootDir) (kept rootDir fs0) (start order fs0));
      [apply kept_start| |exact Hrun].
    intros s1 s2 _ [Hloop|(done & i & Htask)] IH.
    + now apply (kept_loopStep rootDir fs0 s1).
    + now apply (kept_taskStep rootDir fs0 done i s1).
Qed.

End DownloadFacts.

Section DownloadRuns.
Context {URL : Type} `{!Env URL}.

Lemma passes_run (d : WebSeeds URL) (rootDir : string) (fs : FS)
    (schedule : list (option (bool * nat))) (s : Pass URL) :
  downloadTorrentFile d = true ->
  size (torrentUrls d) <> 0%nat ->
  run rootDir schedule (start (map_to_list (torrentUrls d)) fs) = Some s ->
  passes d rootDir fs s.
Proof.
  intros Hon Hsize Hrun. unfold passes. rewrite Hon.
  destruct (Nat.eqb_spec (size (torrentUrls d)) 0); [contradiction|].
  cbn. exists (map_to_list (torrentUrls d)). split; [done|].
  now apply (run_rtc rootDir schedule).
Qed.

(** The task at a mirror stopped by line 271, when the write succeeds:
    the empty [res] is saved and line 158 returns; the mirrors after it
    are not tried. *)
Lemma torrentTask_gate (done : nat -> bool) (tPath : string) (url : URL)
    (rest : list URL) (fs : FS) (resp : Response) :
  NewRequest (URL_String url) = true ->
  Do (done O) (URL_String url) = Some resp ->
  tooSmallOrTooBig (ContentLength resp) = true ->
  canPersist tPath = true ->
  torrentTask done tPath (url :: rest) fs
  = ([EvDo (URL_String url); EvSave tPath EmptyString],
     <[tPath := EmptyString]> fs).
Proof.
  intros Hreq Hdo Hgate Hdisk. cbn [torrentTask].
  rewrite (tryMirror_gate (done O) tPath url fs resp Hreq Hdo Hgate).
  unfold saveTorrent. now rewrite Hdisk.
Qed.

End DownloadRuns.




(** C9: all along a pass, nothing is done for a name whose file exists at
    rootDir/name when the pass is called: no request, no read, no save and
    no goroutine for the name, and the file at rootDir/name is the one
    that was there. *)
Theorem C9_skip_if_present {URL : Type} `{!Env URL}
    (d : WebSeeds URL) (rootDir : string) (fs : FS) (s : Pass URL)
    (name : string) :
  passes d rootDir fs s ->
  FileExist fs (Join rootDir name) = true ->
  (forall ev, (name, ev) ∉ trace s)
  /\ (forall tk, tk ∈ tasks s -> taskName tk <> name)
  /\ files s !! Join rootDir name = fs !! Join rootDir name.
Proof.
  intros Hpass [c Hc]%FileExist_true.
  destruct (kept_passes d rootDir fs s Hpass) as (Hfiles & Htasks & Htrace).
  split; [|split].
  - intros ev Hin. specialize (Htrace name ev Hin). congruence.
  - intros tk Htk Heq. destruct (Htasks tk Htk) as [Hnone Hpath].
    rewrite Hpath, Heq in Hnone. congruence.
  - rewrite Hc. now apply Hfiles.
Qed.

(** [C9_skip_if_present] on a pass that runs to its end: the descriptor
    of "b.seg.torrent" is fetched, for "a.seg.torrent" nothing is done. *)
Lemma C9_skip_if_present_witness :
  match @run _ Scenario.running "/snapshots" ScenarioDownload.schedule
          (start (map_to_list (torrentUrls ScenarioDownload.d)) ScenarioDownload.fs)
  with
  | Some s =>
      finished s
      /\ files s !! "/snapshots/b.seg.torrent" = Some Scenario.descriptor
      /\ (forall ev, ("a.seg.torrent", ev) ∉ trace s)
      /\ files s !! "/snapshots/a.seg.torrent" = Some "old"
  | None => False
  end.
Proof.
  assert ((fun s : Pass string =>
             (pending s, tasks s, files s !! "/snapshots/b.seg.torrent"))
            <$> @run _ Scenario.running "/snapshots" ScenarioDownload.schedule
                  (start (map_to_list (torrentUrls ScenarioDownload.d))
                     ScenarioDownload.fs)
          = Some ([], [], Some Scenario.descriptor)) as Hend
    by (vm_compute; reflexivity).
  destruct (@run _ Scenario.running "/snapshots" ScenarioDownload.schedule
              (start (map_to_list (torrentUrls ScenarioDownload.d))
                 ScenarioDownload.fs)) as [s|] eqn:Hrun; [|discriminate Hend].
  injection Hend as Hpending Htasks Hb.
  destruct (@C9_skip_if_present _ Scenario.running ScenarioDownload.d
              "/snapshots" ScenarioDownload.fs s "a.seg.torrent")
    as (Htrace & _ & Hfile).
  - apply (@passes_run _ Scenario.running _ _ _ ScenarioDownload.schedule);
      [reflexivity | vm_compute; discriminate | exact Hrun].
  - vm_compute; reflexivity.
  - split; [now split|]. split; [exact Hb|]. split; [exact Htrace|].
    etransitivity; [exact Hfile | vm_compute; reflexivity].
Defined.

(** ** The published pair under concurrent calls *)
Section LockingFacts.
Context {URL : Type}.
Import Locking.

Implicit Types (progs : list (list (instr (URL:=URL)))) (c : Config (URL:=URL)).

Lemma lrun_rtc progs (schedule : list nat) :
  forall c c', lrun progs schedule c = Some c' -> rtc (lstep progs) c c'.
Proof.
  induction schedule as [|i rest IH]; intros c c' Hrun; cbn in Hrun.
  - injection Hrun as <-. constructor.
  - destruct (exec progs i c) as [c1|] eqn:Hstep; [|done].
    eapply rtc_l; [exists i; exact Hstep | now apply IH].
Qed.

Lemma Inv_init progs d0 : Inv progs d0 (init progs d0).
Proof.
  split; cbn.
  - apply length_replicate.
  - intros i prog pc _ Hpc. apply lookup_replicate in Hpc as [-> _].
    split; [done|lia].
  - now left.
  - intros o Ho. now apply elem_of_nil in Ho.
Qed.

Lemma pcs_insert_same (i pc : nat) (l : list nat) :
  l !! i = Some pc -> <[i := S pc]> l !! i = Some (S pc).
Proof. intros Hl. apply list_lookup_insert_eq. now apply lookup_lt_Some in Hl. Qed.

(** The holder of the mutex after a statement of call [i]. *)
Lemma holder_step progs c (i : nat) (prog : list instr) (pc : nat)
    (m' : option nat) :
  (forall j prog pc, progs !! j = Some prog -> pcs c !! j = Some pc ->
     (mu c = Some j <-> (0 < pc < length prog)%nat)) ->
  progs !! i = Some prog -> pcs c !! i = Some pc ->
  (m' = Some i <-> (0 < S pc < length prog)%nat) ->
  (forall j, j <> i -> (m' = Some j <-> mu c = Some j)) ->
  forall j prog' pc', progs !! j = Some prog' ->
    <[i := S pc]> (pcs c) !! j = Some pc' ->
    (m' = Some j <-> (0 < pc' < length prog')%nat).
Proof.
  intros Hhold Hprog Hpc Hi Hothers j prog' pc' Hprog' Hpc'.
  destruct (decide (j = i)) as [->|Hne].
  - rewrite (pcs_insert_same i pc _ Hpc) in Hpc'. injection Hpc' as <-.
    rewrite Hprog in Hprog'. now injection Hprog' as <-.
  - rewrite list_lookup_insert_ne in Hpc' by done.
    rewrite (Hothers j Hne). now apply Hhold.
Qed.

Ltac inside_section Hmu Hset Hprog Hpc Hmuc :=
  assert (Hmuc := proj2 Hmu ltac:(cbn; lia));
  unfold settled, remaining in Hset;
  rewrite Hmuc, Hprog, Hpc in Hset; cbn in Hset.

Ltac holder_goal Hhold Hprog Hpc Hmuc :=
  eapply holder_step; [exact Hhold | exact Hprog | exact Hpc | |];
  [ cbn; rewrite ?Hmuc; split; first [lia | congruence | intros; lia | done]
  | intros j Hj; rewrite ?Hmuc; split; congruence ].

Ltac observed_goal Hlog Hset Hmuc :=
  let o := fresh "o" in let Ho := fresh "Ho" in
  intros o [Ho|Ho]%elem_of_app; [now apply Hlog|];
  apply list_elem_of_singleton in Ho as ->;
  split; [exact Hmuc|]; split; [exact Hset|]; cbn; eauto.

Lemma Inv_step progs d0 c c' :
  Forall IsCall progs -> Inv progs d0 c -> lstep progs c c' -> Inv progs d0 c'.
Proof.
  intros Hcalls [Hlen Hhold Hset Hlog] [i Hexec]. unfold exec in Hexec.
  destruct (progs !! i) as [prog|] eqn:Hprog; [|done]. cbn in Hexec.
  destruct (pcs c !! i) as [pc|] eqn:Hpc; [|done]. cbn in Hexec.
  destruct (prog !! pc) as [ins|] eqn:Hins; [|done]. cbn in Hexec.
  pose proof (Forall_lookup_1 _ _ _ _ Hcalls Hprog) as Hcall.
  pose proof (Hhold i prog pc Hprog Hpc) as Hmu.
  pose proof (pcs_insert_same i pc (pcs c) Hpc) as Hsame.
  pose proof (list_elem_of_lookup_2 _ _ _ Hprog) as Hin.
  destruct Hcall; destruct pc as [|[|[|[|pc]]]]; cbn in Hins;
    try discriminate Hins; injection Hins as <-.
  (* the publishing section *)
  1: { assert (mu c = None) as Hmuc by (now destruct (mu c)).
    rewrite Hmuc in Hexec. injection Hexec as <-.
    split; cbn; [now rewrite length_insert | | | exact Hlog].
    + holder_goal Hhold Hprog Hpc Hmuc.
    + unfold settled, remaining; cbn; rewrite Hprog, Hsame; cbn. now right.
  }
  1: { inside_section Hmu Hset Hprog Hpc Hmuc. injection Hexec as <-.
    split; cbn; [now rewrite length_insert | | | exact Hlog].
    + holder_goal Hhold Hprog Hpc Hmuc.
    + unfold settled, remaining; cbn; rewrite Hmuc, Hprog, Hsame; cbn; exact Hset.
  }
  1: { inside_section Hmu Hset Hprog Hpc Hmuc. injection Hexec as <-.
    split; cbn; [now rewrite length_insert | | | exact Hlog].
    + holder_goal Hhold Hprog Hpc Hmuc.
    + unfold settled, remaining; cbn; rewrite Hmuc, Hprog, Hsame; cbn; exact Hset.
  }
  1: { inside_section Hmu Hset Hprog Hpc Hmuc. injection Hexec as <-.
    split; cbn; [now rewrite length_insert | | exact Hset | exact Hlog].
    holder_goal Hhold Hprog Hpc Hmuc.
  }
  (* the accessors *)
  all: match goal with
       | H : pcs _ !! _ = Some 0 |- _ =>
           assert (mu c = None) as Hmuc by (now destruct (mu c));
           rewrite Hmuc in Hexec; injection Hexec as <-;
           unfold settled in Hset; rewrite Hmuc in Hset;
           split; cbn; [now rewrite length_insert | | | exact Hlog];
           [ holder_goal Hhold Hprog Hpc Hmuc
           | unfold settled, remaining; cbn; rewrite Hprog, Hsame; cbn; exact Hset ]
       | H : pcs _ !! _ = Some 1 |- _ =>
           inside_section Hmu Hset Hprog Hpc Hmuc; injection Hexec as <-;
           split; cbn; [now rewrite length_insert | | | ];
           [ holder_goal Hhold Hprog Hpc Hmuc
           | unfold settled, remaining; cbn; rewrite Hmuc, Hprog, Hsame; cbn;
             exact Hset
           | observed_goal Hlog Hset Hmuc ]
       | H : pcs _ !! _ = Some 2 |- _ =>
           inside_section Hmu Hset Hprog Hpc Hmuc; injection Hexec as <-;
           split; cbn; [now rewrite length_insert | | exact Hset | exact Hlog];
           holder_goal Hhold Hprog Hpc Hmuc
       end.
Qed.

Lemma Inv_reachable progs d0 c :
  Forall IsCall progs -> rtc (lstep progs) (init progs d0) c -> Inv progs d0 c.
Proof.
  intros Hcalls Hrun.
  apply (rtc_ind_r (R:=lstep progs) (Inv progs d0) (init progs d0));
    [apply Inv_init| |exact Hrun].
  intros c1 c2 _ Hstep IH. now apply (Inv_step progs d0 c1).
Qed.

(** The publishing section run alone is the assignment of both maps. *)
Lemma publishSection_alone `{!Env URL} (d : WebSeeds URL) (w : WebSeedUrls)
    (t : gmap string (list URL)) :
  shared <$> lrun [publishSection w t] [0; 0; 0; 0]%nat (init [publishSection w t] d)
  = Some (publish w t d).
Proof. reflexivity. Qed.

End LockingFacts.

(** C4: in every configuration that concurrent publishing sections and
    accessors can reach, whatever their interleaving, each read of an
    accessor was made while the accessor held the mutex, the two maps of
    [d] were at that instant the pair of one single discovery pass (the one
    present at the start, or the one of a publishing section), and the
    value read is taken from that pair; whenever the mutex is free, the two
    maps of [d] are such a pair. *)
Theorem C4_readers_see_one_pass {URL : Type}
    (progs : list (list (Locking.instr (URL:=URL)))) (d0 : WebSeeds URL)
    (c : Locking.Config (URL:=URL)) :
  Forall Locking.IsCall progs ->
  rtc (Locking.lstep progs) (Locking.init progs d0) c ->
  (forall o, o ∈ Locking.log c ->
     Locking.holder o = Some (Locking.reader o)
     /\ exists w t,
          Locking.fromOnePass progs d0 w t
          /\ byFileName (Locking.seen o) = w
          /\ torrentUrls (Locking.seen o) = t
          /\ Locking.reads w t (Locking.got o))
  /\ (Locking.mu c = None ->
      Locking.fromOnePass progs d0 (byFileName (Locking.shared c))
        (torrentUrls (Locking.shared c))).
Proof.
  intros Hcalls Hrun.
  destruct (Inv_reachable progs d0 c Hcalls Hrun) as [_ _ Hset Hlog].
  unfold Locking.settled in Hset.
  split.
  - intros o Ho. destruct (Hlog o Ho) as (Hholder & Hpair & Hreads).
    split; [exact Hholder|]. eauto 6.
  - intros Hfree. now rewrite Hfree in Hset.
Qed.

(** Between the two assignments of the publishing section the second
    reader cannot take the mutex: its [Lock] is not enabled. *)
Example reader_waits :
  Locking.lrun ScenarioLocking.progs [0; 0; 2]%nat
    (Locking.init ScenarioLocking.progs ScenarioLocking.d0) = None.
Proof. reflexivity. Qed.

(** [C4_readers_see_one_pass] on a run of three calls: the first reader got
    the torrent map of the pair present at the start, the second, after the
    publishing section, no list for "a.seg". *)
Lemma C4_readers_see_one_pass_witness :
  match Locking.lrun ScenarioLocking.progs ScenarioLocking.schedule
          (Locking.init ScenarioLocking.progs ScenarioLocking.d0)
  with
  | Some c =>
      Locking.got <$> Locking.log c
        = [Locking.VTorrentUrls (torrentUrls ScenarioLocking.d0);
           Locking.VUrlList None]
      /\ (forall o, o ∈ Locking.log c ->
            Locking.holder o = Some (Locking.reader o)
            /\ exists w t,
                 Locking.fromOnePass ScenarioLocking.progs ScenarioLocking.d0 w t
                 /\ byFileName (Locking.seen o) = w
                 /\ torrentUrls (Locking.seen o) = t
                 /\ Locking.reads w t (Locking.got o))
  | None => False
  end.
Proof.
  assert ((fun c => Locking.got <$> Locking.log c)
            <$> Locking.lrun ScenarioLocking.progs ScenarioLocking.schedule
                  (Locking.init ScenarioLocking.progs ScenarioLocking.d0)
          = Some [Locking.VTorrentUrls (torrentUrls ScenarioLocking.d0);
                  Locking.VUrlList None]) as Hgot
    by (vm_compute; reflexivity).
  destruct (Locking.lrun ScenarioLocking.progs ScenarioLocking.schedule
              (Locking.init ScenarioLocking.progs ScenarioLocking.d0))
    as [c|] eqn:Hrun; [|discriminate Hgot].
  injection Hgot as Hgot. split; [exact Hgot|].
  apply (C4_readers_see_one_pass ScenarioLocking.progs ScenarioLocking.d0 c).
  - repeat (apply Forall_cons_2; [constructor|]). apply Forall_nil_2.
  - exact (lrun_rtc _ _ _ _ Hrun).
Defined.

(** * Further properties *)

(** ** The base64 encoding and the token *)
Section Base64Facts.

Lemma land_shiftl_small (a b k : N) :
  (b < 2 ^ k)%N -> N.land (a * 2 ^ k) b = 0%N.
Proof.
  intros Hb. apply N.bits_inj; intros n. rewrite N.land_spec, N.bits_0.
  destruct (N.lt_ge_cases n k) as [Hn|Hn].
  - now rewrite N.mul_pow2_bits_low.
  - rewrite <- (N.mod_small b (2 ^ k)) by done.
    rewrite N.mod_pow2_bits_high by done. apply andb_false_r.
Qed.

Lemma lor_shiftl_add (a b k : N) :
  (b < 2 ^ k)%N -> N.lor (N.shiftl a k) b = (a * 2 ^ k + b)%N.
Proof.
  intros Hb. rewrite N.shiftl_mul_pow2.
  pose proof (land_shiftl_small a b k Hb) as Hland.
  rewrite <- (N.lxor_lor _ _ Hland). symmetry. now apply N.add_nocarry_lxor.
Qed.

(** The 24 bits of a quantum as a number. *)
Lemma quantum_add (a b c d : N) :
  (b < 64)%N -> (c < 64)%N -> (d < 64)%N ->
  base64.quantum a b c d = (((a * 64 + b) * 64 + c) * 64 + d)%N.
Proof.
  intros Hb Hc Hd. unfold base64.quantum.
  change 18%N with (6 + 12)%N. rewrite <- N.shiftl_shiftl, <- N.shiftl_lor.
  rewrite (lor_shiftl_add c d 6) by (cbn; lia).
  rewrite (lor_shiftl_add a b 6) by (cbn; lia).
  rewrite lor_shiftl_add by (cbn; lia).
  change (2 ^ 6)%N with 64%N. change (2 ^ 12)%N with 4096%N. lia.
Qed.

Lemma bytes_add (x y z : N) :
  (y < 256)%N -> (z < 256)%N ->
  N.lor (N.lor (N.shiftl x 16) (N.shiftl y 8)) z = ((x * 256 + y) * 256 + z)%N.
Proof.
  intros Hy Hz.
  change 16%N with (8 + 8)%N. rewrite <- N.shiftl_shiftl, <- N.shiftl_lor.
  rewrite (lor_shiftl_add x y 8) by (cbn; lia).
  rewrite lor_shiftl_add by (cbn; lia).
  change (2 ^ 8)%N with 256%N. lia.
Qed.

Lemma sextet_div (val shift : N) :
  base64.sextet val shift = base64.encodeStd ((val / 2 ^ shift) mod 64).
Proof.
  unfold base64.sextet. rewrite N.shiftr_div_pow2.
  change 63%N with (N.ones 6). now rewrite N.land_ones.
Qed.

Lemma byteAt_div (val shift : N) :
  base64.byteAt val shift = ascii_of_N ((val / 2 ^ shift) mod 256).
Proof.
  unfold base64.byteAt. rewrite N.shiftr_div_pow2.
  change 255%N with (N.ones 8). now rewrite N.land_ones.
Qed.

Lemma decodeMap_encodeStd (n : N) :
  (n < 64)%N ->
  base64.decodeMap (base64.encodeStd n) = Some n.
Proof.
  intros Hn.
  destruct n as [|p]; [reflexivity|].
  do 6 (destruct p as [p|p|]; try reflexivity); lia.
Qed.

Lemma decodeMap_sextet (val shift : N) :
  base64.decodeMap (base64.sextet val shift) = Some ((val / 2 ^ shift) mod 64)%N.
Proof.
  rewrite sextet_div. apply decodeMap_encodeStd.
  apply N.mod_upper_bound. lia.
Qed.

Lemma decodeMap_padChar : base64.decodeMap base64.padChar = None.
Proof. reflexivity. Qed.

Ltac euclid :=
  repeat match goal with
         | |- context [(2 ^ ?k)%N] =>
             let v := eval vm_compute in (2 ^ k)%N in change (2 ^ k)%N with v
         end;
  zify; Z.to_euclidean_division_equations; lia.

Lemma decode_encode_three (a b c : ascii) (rest : list ascii) :
  base64.decodeQuanta (base64.encode (a :: b :: c :: rest))
  = (fun l => a :: b :: c :: l) <$> base64.decodeQuanta (base64.encode rest).
Proof.
  cbn [base64.encode base64.decodeQuanta].
  rewrite !decodeMap_sextet.
  pose proof (N_ascii_bounded a) as Ha. pose proof (N_ascii_bounded b) as Hb.
  pose proof (N_ascii_bounded c) as Hc.
  rewrite (bytes_add _ _ _ Hb Hc).
  set (x := N_of_ascii a) in *. set (y := N_of_ascii b) in *.
  set (z := N_of_ascii c) in *.
  set (val := ((x * 256 + y) * 256 + z)%N).
  rewrite quantum_add by (apply N.mod_upper_bound; lia).
  assert (((((val / 2 ^ 18) mod 64 * 64 + (val / 2 ^ 12) mod 64) * 64
            + (val / 2 ^ 6) mod 64) * 64 + (val / 2 ^ 0) mod 64)%N = val) as ->.
  { subst val. euclid. }
  rewrite !byteAt_div.
  assert (((val / 2 ^ 16) mod 256)%N = x) as -> by (subst val; euclid).
  assert (((val / 2 ^ 8) mod 256)%N = y) as -> by (subst val; euclid).
  assert (((val / 2 ^ 0) mod 256)%N = z) as -> by (subst val; euclid).
  subst x y z. rewrite !ascii_N_embedding.
  now destruct (base64.decodeQuanta (base64.encode rest)).
Qed.

Lemma decode_encode_one (a : ascii) :
  base64.decodeQuanta (base64.encode [a]) = Some [a].
Proof.
  cbn [base64.encode base64.decodeQuanta].
  rewrite !decodeMap_sextet, decodeMap_padChar.
  cbn [Ascii.eqb Bool.eqb base64.padChar andb].
  pose proof (N_ascii_bounded a) as Ha.
  rewrite N.shiftl_mul_pow2.
  set (x := N_of_ascii a) in *.
  rewrite quantum_add by first [apply N.mod_upper_bound; lia | lia].
  rewrite byteAt_div.
  assert ((((((x * 2 ^ 16 / 2 ^ 18) mod 64 * 64 + (x * 2 ^ 16 / 2 ^ 12) mod 64) * 64
             + 0) * 64 + 0) / 2 ^ 16) mod 256 = x)%N as -> by euclid.
  subst x. now rewrite ascii_N_embedding.
Qed.

Lemma decode_encode_two (a b : ascii) :
  base64.decodeQuanta (base64.encode [a; b]) = Some [a; b].
Proof.
  cbn [base64.encode base64.decodeQuanta].
  rewrite !decodeMap_sextet, decodeMap_padChar.
  cbn [Ascii.eqb Bool.eqb base64.padChar andb].
  pose proof (N_ascii_bounded a) as Ha. pose proof (N_ascii_bounded b) as Hb.
  change 16%N with (8 + 8)%N. rewrite <- N.shiftl_shiftl, <- N.shiftl_lor.
  rewrite (lor_shiftl_add _ _ 8) by (cbn; lia). rewrite N.shiftl_mul_pow2.
  set (x := N_of_ascii a) in *. set (y := N_of_ascii b) in *.
  set (val := ((x * 2 ^ 8 + y) * 2 ^ 8)%N).
  rewrite quantum_add by first [apply N.mod_upper_bound; lia | lia].
  rewrite !byteAt_div.
  assert ((((((val / 2 ^ 18) mod 64 * 64 + (val / 2 ^ 12) mod 64) * 64
             + (val / 2 ^ 6) mod 64) * 64 + 0) / 2 ^ (8 + 8)) mod 256 = x)%N
    as -> by (subst val; euclid).
  assert ((((((val / 2 ^ 18) mod 64 * 64 + (val / 2 ^ 12) mod 64) * 64
             + (val / 2 ^ 6) mod 64) * 64 + 0) / 2 ^ 8) mod 256 = y)%N
    as -> by (subst val; euclid).
  subst x y. now rewrite !ascii_N_embedding.
Qed.

(** Decoding what the encoder wrote gives the bytes back. *)
Lemma decodeQuanta_encode (l : list ascii) :
  base64.decodeQuanta (base64.encode l) = Some l.
Proof.
  enough (base64.decodeQuanta (base64.encode l) = Some l
          /\ (forall a, base64.decodeQuanta (base64.encode (a :: l)) = Some (a :: l))
          /\ (forall a b, base64.decodeQuanta (base64.encode (a :: b :: l))
                          = Some (a :: b :: l))) as [Hl _] by exact Hl.
  induction l as [|c l (IH0 & IH1 & IH2)].
  - split; [reflexivity|]. split; [apply decode_encode_one|apply decode_encode_two].
  - split; [apply IH1|]. split; [intros a; apply IH2|].
    intros a b. now rewrite decode_encode_three, IH0.
Qed.

Lemma written_sextet (val shift : N) : written (base64.sextet val shift).
Proof.
  right. exists ((val / 2 ^ shift) mod 64)%N.
  split; [apply N.mod_upper_bound; lia | apply sextet_div].
Qed.

Lemma encode_written (l : list ascii) : Forall written (base64.encode l).
Proof.
  enough (Forall written (base64.encode l)
          /\ (forall a, Forall written (base64.encode (a :: l)))
          /\ (forall a b, Forall written (base64.encode (a :: b :: l))))
    as [Hl _] by exact Hl.
  induction l as [|c l (IH0 & IH1 & IH2)].
  - split; [constructor|].
    split; intros; cbn [base64.encode];
      repeat (apply Forall_cons_2; [first [apply written_sextet | now left]|]);
      apply Forall_nil_2.
  - split; [apply IH1|]. split; [intros a; apply IH2|].
    intros a b. cbn [base64.encode].
    repeat (apply Forall_cons_2; [apply written_sextet|]). exact IH0.
Qed.

Lemma written_ordinary (c : ascii) : written c -> ordinary c = true.
Proof.
  intros [->|(n & Hn & ->)]; [reflexivity|].
  destruct n as [|p]; [reflexivity|].
  do 6 (destruct p as [p|p|]; try reflexivity); lia.
Qed.

End Base64Facts.

Section StringFacts.

Lemma find_none_2 {A} (f : A -> bool) (l : list A) :
  (forall x, In x l -> f x = false) -> List.find f l = None.
Proof.
  induction l as [|x l IH]; intros Hf; [reflexivity|].
  cbn. rewrite (Hf x (or_introl eq_refl)). apply IH.
  intros y Hy. apply Hf. now right.
Qed.

Lemma rev_rev (s : string) : strings.rev (strings.rev s) = s.
Proof.
  unfold strings.rev.
  now rewrite list_ascii_of_string_of_list_ascii, rev_involutive,
    string_of_list_ascii_of_string.
Qed.

Lemma ordinary_spaces (c : ascii) (sp : string) :
  ordinary c = true ->
  In sp (strings.spaces ++ map strings.rev strings.spaces) ->
  forall s, strings.HasPrefix (String c s) sp = false.
Proof.
  unfold ordinary. intros [_ Hall]%andb_true_iff Hin s.
  rewrite forallb_forall in Hall. specialize (Hall sp Hin).
  destruct sp as [|h t]; [discriminate Hall|].
  cbn. now destruct (Ascii.eqb h c).
Qed.

(** A string that starts with an ordinary character starts with no
    white-space rune, and ends with none when it is the reverse. *)
Lemma leadingSpace_ordinary (c : ascii) (s : string) :
  ordinary c = true -> strings.leadingSpace (String c s) = None.
Proof.
  intros Hc. unfold strings.leadingSpace. rewrite find_none_2; [reflexivity|].
  intros sp Hsp. apply (ordinary_spaces c sp Hc). apply in_or_app. now left.
Qed.

Lemma trailingSpace_ordinary (c : ascii) (r : string) :
  ordinary c = true -> strings.trailingSpace (String c r) = None.
Proof.
  intros Hc. unfold strings.trailingSpace. rewrite find_none_2; [reflexivity|].
  intros sp Hsp. apply (ordinary_spaces c (strings.rev sp) Hc).
  apply in_or_app. right. now apply in_map.
Qed.

(** Nothing is trimmed from a string of ordinary characters. *)
Lemma TrimSpace_ordinary (s : string) :
  Forall (fun c => ordinary c = true) (list_ascii_of_string s) ->
  strings.TrimSpace s = s.
Proof.
  intros Hall. unfold strings.TrimSpace.
  destruct s as [|c s]; [reflexivity|].
  assert (strings.trimLeft (String.length (String c s)) (String c s) = String c s)
    as ->.
  { cbn [String.length strings.trimLeft].
    rewrite leadingSpace_ordinary; [reflexivity|].
    now apply Forall_cons_1 in Hall as [Hc _]. }
  assert (Forall (fun c => ordinary c = true)
            (list_ascii_of_string (strings.rev (String c s)))) as Hrev.
  { unfold strings.rev. rewrite list_ascii_of_string_of_list_ascii.
    apply Forall_forall. intros x Hx. rewrite Forall_forall in Hall. apply Hall.
    apply list_elem_of_In. apply list_elem_of_In, in_rev in Hx. exact Hx. }
  rewrite <- (rev_rev (String c s)) at 3.
  destruct (strings.rev (String c s)) as [|c' r] eqn:Hr.
  - reflexivity.
  - cbn [String.length strings.trimRightRev].
    rewrite trailingSpace_ordinary; [reflexivity|].
    now apply Forall_cons_1 in Hrev as [Hc' _].
Qed.

Lemma Split_no_sep (s : string) (sep : ascii) :
  sep ∉ list_ascii_of_string s -> strings.Split s sep = [s].
Proof.
  induction s as [|c s IH]; intros Hsep; [reflexivity|].
  cbn [list_ascii_of_string] in Hsep. apply not_elem_of_cons in Hsep as [Hc Hs].
  cbn [strings.Split]. destruct (Ascii.eqb_spec c sep) as [->|_]; [done|].
  now rewrite (IH Hs).
Qed.

Lemma Split_append (a b : string) (sep : ascii) :
  sep ∉ list_ascii_of_string a ->
  strings.Split (a +:+ String sep b) sep = a :: strings.Split b sep.
Proof.
  induction a as [|c a IH]; intros Hsep.
  - change ("" +:+ String sep b) with (String sep b).
    change (strings.Split (String sep b) sep)
      with (if Ascii.eqb sep sep then EmptyString :: strings.Split b sep
            else match strings.Split b sep with
                 | h :: t => String sep h :: t
                 | [] => [String sep EmptyString]
                 end).
    now rewrite Ascii.eqb_refl.
  - cbn [list_ascii_of_string] in Hsep. apply not_elem_of_cons in Hsep as [Hc Hs].
    change (String c a +:+ String sep b) with (String c (a +:+ String sep b)).
    cbn [strings.Split].
    destruct (Ascii.eqb_spec c sep) as [->|_]; [done|].
    now rewrite (IH Hs).
Qed.

(** What the encoder writes decodes to the bytes it was given, is left as
    it is by [TrimSpace] and holds no colon. *)
Lemma EncodeToString_ordinary (s : string) :
  Forall (fun c => ordinary c = true)
    (list_ascii_of_string (base64.EncodeToString s)).
Proof.
  unfold base64.EncodeToString. rewrite list_ascii_of_string_of_list_ascii.
  eapply Forall_impl; [apply encode_written|]. exact written_ordinary.
Qed.

Lemma DecodeString_EncodeToString (s : string) :
  base64.DecodeString (base64.EncodeToString s) = Some s.
Proof.
  pose proof (EncodeToString_ordinary s) as Hall.
  unfold base64.DecodeString.
  assert (List.filter (fun c => negb (base64.isNewline c))
            (list_ascii_of_string (base64.EncodeToString s))
          = list_ascii_of_string (base64.EncodeToString s)) as ->.
  { induction Hall as [|c l Hc _ IH]; [reflexivity|].
    cbn [List.filter]. unfold ordinary in Hc.
    apply andb_true_iff in Hc as [[-> _]%andb_true_iff _]. now rewrite IH. }
  unfold base64.EncodeToString.
  rewrite list_ascii_of_string_of_list_ascii, decodeQuanta_encode. cbn.
  now rewrite string_of_list_ascii_of_string.
Qed.

Lemma EncodeToString_no_colon (s : string) :
  ":"%char ∉ list_ascii_of_string (base64.EncodeToString s).
Proof.
  pose proof (EncodeToString_ordinary s) as Hall. intros Hin.
  rewrite Forall_forall in Hall. specialize (Hall _ Hin). discriminate Hall.
Qed.

End StringFacts.

(** X1: for all fields without a colon, the token built as
    ["v1:" + base64(accountId:accessKeyId:accessKeySecret)] resolves to the
    three fields with their white space trimmed. *)
Theorem X1_token_round_trip (accountId accessKeyId accessKeySecret : string) :
  ":"%char ∉ list_ascii_of_string accountId ->
  ":"%char ∉ list_ascii_of_string accessKeyId ->
  ":"%char ∉ list_ascii_of_string accessKeySecret ->
  s3Credentials
    ("v1:" +:+ base64.EncodeToString
                 (accountId +:+ ":" +:+ accessKeyId +:+ ":" +:+ accessKeySecret))
  = ret (strings.TrimSpace accountId, strings.TrimSpace accessKeyId,
         strings.TrimSpace accessKeySecret).
Proof.
  intros Ha Hk Hs.
  set (raw := accountId +:+ ":" +:+ accessKeyId +:+ ":" +:+ accessKeySecret).
  apply (s3Credentials_three_parts _ "v1" (base64.EncodeToString raw) raw).
  - change ("v1:" +:+ base64.EncodeToString raw)
      with ("v1" +:+ String ":" (base64.EncodeToString raw)).
    rewrite Split_append by (vm_compute; intros H; inversion H as [|? ? ? H1]; subst;
                             inversion H1 as [|? ? ? H2]; subst; inversion H2).
    now rewrite (Split_no_sep _ _ (EncodeToString_no_colon raw)).
  - reflexivity.
  - rewrite (TrimSpace_ordinary _ (EncodeToString_ordinary raw)).
    apply DecodeString_EncodeToString.
  - subst raw.
    change (strings.Split
              (accountId +:+ String ":" (accessKeyId +:+ String ":" accessKeySecret))
              ":" = [accountId; accessKeyId; accessKeySecret]).
    rewrite (Split_append accountId _ ":" Ha).
    rewrite (Split_append accessKeyId _ ":" Hk).
    now rewrite (Split_no_sep _ _ Hs).
Qed.

Lemma X1_token_round_trip_witness :
  s3Credentials
    ("v1:" +:+ base64.EncodeToString
                 (" 4f2a " +:+ ":" +:+ "key id" +:+ ":" +:+ "s3cr3t/+="))
  = ret ("4f2a", "key id", "s3cr3t/+=").
Proof.
  apply (X1_token_round_trip " 4f2a " "key id" "s3cr3t/+=");
    vm_compute; intros H; repeat (inversion H as [|? ? ? H']; subst; clear H; rename H' into H).
Defined.

(** The outcomes of [s3Credentials]. *)
Lemma s3Credentials_outcomes (token : string) :
  (s3Credentials token).1 = []
  /\ (forall creds,
        (s3Credentials token).2 = Ok creds
        <-> exists v p raw x y z,
              strings.Split token ":" = [v; p]
              /\ strings.TrimSpace v = "v1"
              /\ base64.DecodeString (strings.TrimSpace p) = Some raw
              /\ strings.Split raw ":" = [x; y; z]
              /\ creds = (strings.TrimSpace x, strings.TrimSpace y,
                          strings.TrimSpace z))
  /\ (panics (s3Credentials token)
      <-> exists v p raw,
            strings.Split token ":" = [v; p]
            /\ strings.TrimSpace v = "v1"
            /\ base64.DecodeString (strings.TrimSpace p) = Some raw
            /\ (length (strings.Split raw ":") < 3)%nat).
Proof.
  destruct (strings.Split token ":") as [|v [|p [|q l]]] eqn:Hsplit.
  1, 2, 4:
    rewrite s3Credentials_not_two_parts by (rewrite Hsplit; cbn; lia);
    unfold fail, panics; cbn [fst snd]; (split; [reflexivity|]); split;
    [ intros creds; split; [intros [=]|intros (? & ? & ? & ? & ? & ? & [=] & _)]
    | split; [intros []|intros (? & ? & ? & [=] & _)] ].
  destruct (String.eqb_spec (strings.TrimSpace v) "v1") as [Hv|Hv].
  2: { rewrite (s3Credentials_version token v p Hsplit Hv).
       unfold fail, ret, panics; cbn [fst snd].
    split; [reflexivity|]. split.
       - intros creds; split; [intros [=]|].
         intros (? & ? & ? & ? & ? & ? & [= <- <-] & Hv' & _). contradiction.
       - split; [intros []|]. intros (? & ? & ? & [= <- <-] & Hv' & _).
         contradiction. }
  destruct (base64.DecodeString (strings.TrimSpace p)) as [raw|] eqn:Hdec.
  2: { assert (s3Credentials token = fail ErrCorruptInput) as ->.
       { unfold s3Credentials. rewrite Hsplit. cbn [length Nat.eqb negb].
         rewrite (index_lookup [v; p] 0 v), (index_lookup [v; p] 1 p), !bind_ret
           by reflexivity.
         cbv zeta. rewrite Hv, Hdec. reflexivity. }
       unfold fail, ret, panics; cbn [fst snd].
    split; [reflexivity|]. split.
       - intros creds; split; [intros [=]|].
         intros (? & ? & ? & ? & ? & ? & [= <- <-] & _ & Hdec' & _). congruence.
       - split; [intros []|]. intros (? & ? & ? & [= <- <-] & _ & Hdec' & _).
         congruence. }
  destruct (lt_eq_lt_dec (length (strings.Split raw ":")) 3) as [[Hlt|Heq]|Hgt].
  - rewrite (s3Credentials_short_payload token v p raw Hsplit Hv Hdec Hlt).
    unfold fail, ret, panics; cbn [fst snd].
    split; [reflexivity|]. split.
    + intros creds; split; [intros [=]|].
      intros (? & ? & raw' & ? & ? & ? & [= <- <-] & _ & Hdec' & Hraw & _).
      assert (raw' = raw) as -> by congruence.
      rewrite Hraw in Hlt. cbn in Hlt. lia.
    + split; [|intros _; exact I]. intros _. now exists v, p, raw.
  - destruct (strings.Split raw ":") as [|x [|y [|z [|? ?]]]] eqn:Hraw;
      try discriminate Heq.
    rewrite (s3Credentials_three_parts token v p raw x y z Hsplit Hv Hdec Hraw).
    unfold fail, ret, panics; cbn [fst snd].
    split; [reflexivity|]. split.
    + intros creds; split.
      * intros [= <-]. now exists v, p, raw, x, y, z.
      * intros (? & ? & raw' & ? & ? & ? & [= <- <-] & _ & Hdec' & Hraw' & ->).
        assert (raw' = raw) as -> by congruence.
        rewrite Hraw in Hraw'. now injection Hraw' as <- <- <-.
    + split; [intros []|].
      intros (? & ? & raw' & [= <- <-] & _ & Hdec' & Hlen).
      assert (raw' = raw) as -> by congruence.
      rewrite Hraw in Hlen. cbn in Hlen. lia.
  - rewrite (s3Credentials_long_payload token v p raw Hsplit Hv Hdec Hgt).
    unfold fail, ret, panics; cbn [fst snd].
    split; [reflexivity|]. split.
    + intros creds; split; [intros [=]|].
      intros (? & ? & raw' & ? & ? & ? & [= <- <-] & _ & Hdec' & Hraw & _).
      assert (raw' = raw) as -> by congruence.
      rewrite Hraw in Hgt. cbn in Hgt. lia.
    + split; [intros []|].
      intros (? & ? & raw' & [= <- <-] & _ & Hdec' & Hlen).
      assert (raw' = raw) as -> by congruence. lia.
Qed.

(** X2: resolving a token does nothing to the outside world.  It returns
    credentials exactly when the token has two parts, the version is "v1",
    the payload decodes and has three parts, and these are then the
    trimmed parts; it panics exactly when such a payload has fewer than
    three parts. *)
Theorem X2_token_outcomes (token : string) :
  (s3Credentials token).1 = []
  /\ (forall creds,
        (s3Credentials token).2 = Ok creds
        <-> exists v p raw x y z,
              strings.Split token ":" = [v; p]
              /\ strings.TrimSpace v = "v1"
              /\ base64.DecodeString (strings.TrimSpace p) = Some raw
              /\ strings.Split raw ":" = [x; y; z]
              /\ creds = (strings.TrimSpace x, strings.TrimSpace y,
                          strings.TrimSpace z))
  /\ (panics (s3Credentials token)
      <-> exists v p raw,
            strings.Split token ":" = [v; p]
            /\ strings.TrimSpace v = "v1"
            /\ base64.DecodeString (strings.TrimSpace p) = Some raw
            /\ (length (strings.Split raw ":") < 3)%nat).
Proof. exact (s3Credentials_outcomes token). Qed.

(** ** The discovery pass *)
Section DiscoveryFacts.
Context {URL : Type} `{!Env URL}.

Lemma nonempty_lookup {A} (m : gmap string (list A)) (k : string) :
  noEmpty m -> m !! k = nonempty (m !!! k).
Proof.
  intros Hm. rewrite lookup_total_alt. specialize (Hm k).
  destruct (m !! k) as [l|]; [|reflexivity].
  cbn. destruct l; [now specialize (Hm [] eq_refl)|reflexivity].
Qed.

Lemma noEmpty_insert {A} (m : gmap string (list A)) (k : string) (l : list A) (x : A) :
  noEmpty m -> noEmpty (<[k := l ++ [x]]> m).
Proof.
  intros Hm k' l' Hl'. destruct (decide (k = k')) as [->|Hne].
  - rewrite lookup_insert_eq in Hl'. injection Hl' as <-. now destruct l.
  - rewrite lookup_insert_ne in Hl' by done. now apply (Hm k').
Qed.

Lemma mergeEntry_noEmpty (acc : WebSeedUrls * TorrentUrls URL) (e : string * string) :
  noEmpty acc.1 /\ noEmpty acc.2 ->
  noEmpty (mergeEntry acc e).1 /\ noEmpty (mergeEntry acc e).2.
Proof.
  destruct acc as [w t], e as [name wUrl]. cbn [fst snd]. intros [Hw Ht].
  unfold mergeEntry.
  destruct (strings.HasSuffix name ".torrent");
    [destruct (ParseRequestURI wUrl)|]; cbn [fst snd];
    auto using noEmpty_insert.
Qed.

Lemma mergeList_noEmpty (lst : list WebSeedsFromProvider) :
  forall (i : nat) (acc : WebSeedUrls * TorrentUrls URL),
    noEmpty acc.1 /\ noEmpty acc.2 ->
    noEmpty (mergeList i lst acc).1 /\ noEmpty (mergeList i lst acc).2.
Proof.
  induction lst as [|doc lst IH]; intros i acc Hacc; [exact Hacc|].
  cbn [mergeList]. apply IH. generalize (rangeOrder i doc). intros es.
  revert acc Hacc. induction es as [|e es IHes]; intros acc Hacc; [exact Hacc|].
  cbn [fold_left]. apply IHes. now apply mergeEntry_noEmpty.
Qed.

Lemma noEmpty_empty {A} : noEmpty (∅ : gmap string (list A)).
Proof. intros k l Hl. now rewrite lookup_empty in Hl. Qed.

Lemma concat_nil {A B} (l : list A) :
  concat ((fun _ => @nil B) <$> l) = [].
Proof. induction l as [|x l IH]; [reflexivity|exact IH]. Qed.

(** The two published maps, entry by entry, in terms of the documents the
    providers returned. *)
Lemma published_entries (d d' : WebSeeds URL) (s3Providers : list string)
    (httpProviders : list URL) (diskProviders : list string)
    (tr : list Event) (name : string) :
  downloadWebseedTomlFromProviders d s3Providers httpProviders diskProviders
    = (tr, Ok d') ->
  let docs := concat (okDoc <$> visits d s3Providers httpProviders diskProviders) in
  byFileName d' !! name
    = (if strings.HasSuffix name ".torrent" then None
       else nonempty (omap (fun doc => doc !! name) docs))
  /\ torrentUrls d' !! name
    = (if strings.HasSuffix name ".torrent"
       then nonempty (omap (fun doc => doc !! name ≫= ParseRequestURI) docs)
       else None).
Proof.
  intros Hrun docs.
  destruct (published_lists d d' _ _ _ tr name Hrun) as [Hw Ht].
  fold docs in Hw, Ht.
  destruct (downloadWebseedTomlFromProviders_Ok _ _ _ _ _ _ Hrun) as (lst & _ & Hd').
  destruct (mergeList_noEmpty lst 0 (∅, ∅) (conj noEmpty_empty noEmpty_empty))
    as [Hnw Hnt].
  assert (byFileName d' !! name = nonempty (byFileName d' !!! name)) as Hwl
    by (subst d'; apply nonempty_lookup, Hnw).
  assert (torrentUrls d' !! name = nonempty (torrentUrls d' !!! name)) as Htl
    by (subst d'; apply nonempty_lookup, Hnt).
  rewrite Hwl, Htl, Hw, Ht. unfold webSeedOf, torrentOf.
  destruct (strings.HasSuffix name ".torrent").
  - rewrite concat_nil.
    now rewrite (concat_option_list (fun doc => doc !! name ≫= ParseRequestURI)).
  - rewrite concat_nil. now rewrite concat_option_list.
Qed.

Lemma nonempty_is_Some {A} (l : list A) : is_Some (nonempty l) <-> l <> [].
Proof. destruct l; cbn; split; try done; intros [? [=]]. Qed.

Lemma omap_not_nil {A B} (f : A -> option B) (l : list A) :
  omap f l <> [] <-> exists x, x ∈ l /\ is_Some (f x).
Proof.
  induction l as [|a l IH]; cbn.
  - split; [done|]. intros (x & Hx & _). now apply elem_of_nil in Hx.
  - destruct (f a) as [b|] eqn:Hfa.
    + split; [|done]. intros _. exists a. split; [left|]. now rewrite Hfa.
    + rewrite IH. split.
      * intros (x & Hx & Hfx). exists x. split; [now right|done].
      * intros (x & [->|Hx]%elem_of_cons & Hfx).
        -- rewrite Hfa in Hfx. now destruct Hfx.
        -- now exists x.
Qed.

Lemma omap_length_le {A B} (f : A -> option B) (l : list A) :
  (length (omap f l) <= length l)%nat.
Proof.
  induction l as [|a l IH]; cbn; [lia|]. destruct (f a); cbn; lia.
Qed.

Lemma okDoc_length (calls : list (M WebSeedsFromProvider)) :
  (length (concat (okDoc <$> calls)) <= length calls)%nat.
Proof.
  induction calls as [|r calls IH]; cbn; [lia|].
  rewrite length_app. destruct r as [t [doc|e|i n]]; cbn; lia.
Qed.

Lemma visits_length (d : WebSeeds URL) (s3Providers : list string)
    (httpProviders : list URL) (diskProviders : list string) :
  length (visits d s3Providers httpProviders diskProviders)
  = (length httpProviders + length s3Providers + length diskProviders)%nat.
Proof.
  unfold visits, httpCalls, s3Calls, diskCalls.
  rewrite !length_app, !length_imap, length_fmap. lia.
Qed.

(** A provider call depends on [d] through the chain name only. *)
Lemma visits_chainName (d1 d2 : WebSeeds URL) (s3Providers : list string)
    (httpProviders : list URL) (diskProviders : list string) :
  chainName d1 = chainName d2 ->
  visits d1 s3Providers httpProviders diskProviders
  = visits d2 s3Providers httpProviders diskProviders.
Proof.
  intros Hchain. unfold visits, s3Calls. do 2 f_equal.
  apply imap_ext. intros k token _. unfold callS3Provider. now rewrite Hchain.
Qed.

(** The events of the calls, by kind of provider. *)
Lemma httpCalls_events (httpProviders : list URL) :
  forall i,
    Forall isDo (concat (fst <$> httpCalls i httpProviders))
    /\ (length (concat (fst <$> httpCalls i httpProviders))
        <= length httpProviders)%nat.
Proof.
  induction httpProviders as [|u ps IH]; intros i; [split; [constructor|cbn; lia]|].
  unfold httpCalls. rewrite imap_cons. cbn [fmap list_fmap concat].
  rewrite (imap_ext _ (fun k u0 => callHttpProvider (ctxDone (S i + k)) u0))
    by (intros k x _; cbn; now rewrite Nat.add_succ_r).
  destruct (IH (S i)) as [Hall Hlen]. fold (httpCalls (S i) ps).
  rewrite length_app. cbn [length].
  assert ((callHttpProvider (ctxDone (i + 0)) u).1 = []
          \/ (callHttpProvider (ctxDone (i + 0)) u).1 = [EvDo (URL_String u)])
    as [-> | ->].
  { unfold callHttpProvider. destruct (NewRequest (URL_String u)); [|now left].
    right. destruct (Do _ (URL_String u)) as [resp|]; [|done].
    cbn. now destruct (Body resp ≫= tomlDecode). }
  - split; [exact Hall|cbn; lia].
  - split; [constructor; [exact I|exact Hall]|cbn; lia].
Qed.

Lemma callS3Provider_events (d : WebSeeds URL) (done : bool) (token : string) :
  (callS3Provider d done token).1 = []
  \/ exists creds,
       (s3Credentials token).2 = Ok creds
       /\ (callS3Provider d done token).1
          = [EvGetObject creds.1.1
               ("erigon-v3-snapshots-" +:+ chainName d +:+ "-webseed")
               "webseeds.toml"].
Proof.
  unfold callS3Provider.
  pose proof (proj1 (s3Credentials_outcomes token)) as Hquiet.
  destruct (s3Credentials token) as [t [creds|e|i n]]; cbn in Hquiet; subst t;
    [|now left..].
  cbn [bind]. destruct (LoadDefaultConfig done); [|now left].
  right. exists creds. split; [reflexivity|].
  destruct (GetObject done creds _ _) as [body|]; [|done].
  cbn. now destruct (body ≫= tomlDecode).
Qed.

Lemma s3Calls_events (d : WebSeeds URL) (s3Providers : list string) :
  forall i,
    Forall isGetObject (concat (fst <$> s3Calls d i s3Providers))
    /\ (length (concat (fst <$> s3Calls d i s3Providers))
        <= length s3Providers)%nat.
Proof.
  induction s3Providers as [|u ps IH]; intros i; [split; [constructor|cbn; lia]|].
  unfold s3Calls. rewrite imap_cons. cbn [fmap list_fmap concat].
  rewrite (imap_ext _ (fun k u0 => callS3Provider d (ctxDone (S i + k)) u0))
    by (intros k x _; cbn; now rewrite Nat.add_succ_r).
  destruct (IH (S i)) as [Hall Hlen]. fold (s3Calls d (S i) ps).
  rewrite length_app. cbn [length].
  destruct (callS3Provider_events d (ctxDone (i + 0)) u) as [-> | (creds & _ & ->)].
  - split; [exact Hall|cbn; lia].
  - split; [constructor; [exact I|exact Hall]|cbn; lia].
Qed.

Lemma diskCalls_events (diskProviders : list string) :
  concat (fst <$> diskCalls diskProviders) = EvReadFile <$> diskProviders.
Proof.
  induction diskProviders as [|p ps IH]; [reflexivity|].
  change (concat (fst <$> diskCalls (p :: ps)))
    with ((readWebSeedsFile p).1 ++ concat (fst <$> diskCalls ps)).
  rewrite IH. unfold readWebSeedsFile.
  destruct (ReadFile p) as [data|]; [|reflexivity].
  cbn. now destruct (tomlDecode data).
Qed.

End DiscoveryFacts.

(** X3: after a pass that returns, each published map is determined, entry
    by entry, by the documents the providers returned, taken in visit
    order, whatever the order in which [range] went over each document: a
    name without the suffix ".torrent" is a key of the webseed map exactly
    when some document has it, with the list of the urls the documents have
    for it, and is no key of the torrent map; a name with the suffix is a
    key of the torrent map exactly when the url of some document for it
    parses, with the list of the parsed URLs, and is no key of the webseed
    map.  No key has an empty list. *)
Theorem X3_published_maps {URL : Type} `{!Env URL}
    (d d' : WebSeeds URL) (s3Providers : list string)
    (httpProviders : list URL) (diskProviders : list string)
    (tr : list Event) (name : string) :
  downloadWebseedTomlFromProviders d s3Providers httpProviders diskProviders
    = (tr, Ok d') ->
  let docs := concat (okDoc <$> (httpCalls 0 httpProviders
                                 ++ s3Calls d (length httpProviders) s3Providers
                                 ++ diskCalls diskProviders)) in
  byFileName d' !! name
    = (if strings.HasSuffix name ".torrent" then None
       else nonempty (omap (fun doc => doc !! name) docs))
  /\ torrentUrls d' !! name
    = (if strings.HasSuffix name ".torrent"
       then nonempty (omap (fun doc => doc !! name ≫= ParseRequestURI) docs)
       else None).
Proof. exact (published_entries d d' _ _ _ tr name). Qed.

Lemma X3_published_maps_witness :
  match (@downloadWebseedTomlFromProviders _ Scenario.running Scenario.d0
           Scenario.s3Providers Scenario.httpProviders Scenario.diskProviders).2
  with
  | Ok d' =>
      byFileName d' !! "a.seg"
        = Some ["https://one.example/a.seg"; "https://two.example/a.seg";
                "https://three.example/a.seg"]
      /\ torrentUrls d' !! "a.seg" = None
      /\ torrentUrls d' !! "b.seg.torrent" = None
  | _ => False
  end.
Proof.
  destruct (@downloadWebseedTomlFromProviders _ Scenario.running Scenario.d0
              Scenario.s3Providers Scenario.httpProviders
              Scenario.diskProviders) as [tr [d'|e|i n]] eqn:Hpass; cbn [snd].
  - destruct (@X3_published_maps _ Scenario.running _ _ _ _ _ _ "a.seg" Hpass)
      as [Hw Ht].
    destruct (@X3_published_maps _ Scenario.running _ _ _ _ _ _ "b.seg.torrent" Hpass)
      as [_ Hb].
    split; [rewrite Hw; vm_compute; reflexivity|].
    split; [rewrite Ht; vm_compute; reflexivity|rewrite Hb; vm_compute; reflexivity].
  - rewrite scenario_pass in Hpass. discriminate Hpass.
  - rewrite scenario_pass in Hpass. discriminate Hpass.
Defined.

(** X4: after a pass that returns, [ByFileName(name)] finds a list exactly
    for the names without the suffix ".torrent" that some returned document
    has, and the torrent map has exactly the names with the suffix for
    which the url of some returned document parses; [Len()] is the number
    of the former. *)
Theorem X4_published_keys {URL : Type} `{!Env URL}
    (d d' : WebSeeds URL) (s3Providers : list string)
    (httpProviders : list URL) (diskProviders : list string)
    (tr : list Event) :
  downloadWebseedTomlFromProviders d s3Providers httpProviders diskProviders
    = (tr, Ok d') ->
  let docs := concat (okDoc <$> (httpCalls 0 httpProviders
                                 ++ s3Calls d (length httpProviders) s3Providers
                                 ++ diskCalls diskProviders)) in
  (forall name,
      is_Some (byFileName d' !! name)
      <-> strings.HasSuffix name ".torrent" = false
          /\ exists doc, doc ∈ docs /\ is_Some (doc !! name))
  /\ (forall name,
      is_Some (torrentUrls d' !! name)
      <-> strings.HasSuffix name ".torrent" = true
          /\ exists doc, doc ∈ docs /\ is_Some (doc !! name ≫= ParseRequestURI))
  /\ size (byFileName d')
     = size (filter (fun name => strings.HasSuffix name ".torrent" = false)
               (⋃ (dom <$> docs) : gset string)).
Proof.
  intros Hrun docs.
  assert (forall name,
      is_Some (byFileName d' !! name)
      <-> strings.HasSuffix name ".torrent" = false
          /\ exists doc, doc ∈ docs /\ is_Some (doc !! name)) as Hkeys.
  { intros name.
    destruct (published_entries d d' _ _ _ tr name Hrun) as [-> _]. fold docs.
    destruct (strings.HasSuffix name ".torrent").
    - split; [intros [? [=]]|intros [[=] _]].
    - rewrite nonempty_is_Some, omap_not_nil. tauto. }
  split; [exact Hkeys|]. split.
  - intros name.
    destruct (published_entries d d' _ _ _ tr name Hrun) as [_ ->]. fold docs.
    destruct (strings.HasSuffix name ".torrent").
    + rewrite nonempty_is_Some, omap_not_nil. tauto.
    + split; [intros [? [=]]|intros [[=] _]].
  - rewrite <- size_dom. f_equal. apply set_eq. intros name.
    rewrite elem_of_dom, Hkeys, elem_of_filter, elem_of_union_list.
    split.
    + intros (Hs & doc & Hdoc & Hname). split; [exact Hs|].
      exists (dom doc). split; [now apply list_elem_of_fmap_2|].
      now apply elem_of_dom.
    + intros (Hs & X & HX & Hname). split; [exact Hs|].
      apply list_elem_of_fmap in HX as (doc & -> & Hdoc).
      exists doc. split; [exact Hdoc|]. now apply elem_of_dom.
Qed.

Lemma X4_published_keys_witness :
  match (@downloadWebseedTomlFromProviders _ Scenario.running Scenario.d0
           Scenario.s3Providers Scenario.httpProviders Scenario.diskProviders).2
  with
  | Ok d' =>
      is_Some (byFileName d' !! "a.seg")
      /\ is_Some (torrentUrls d' !! "a.seg.torrent")
      /\ size (byFileName d') = 1%nat
  | _ => False
  end.
Proof.
  destruct (@downloadWebseedTomlFromProviders _ Scenario.running Scenario.d0
              Scenario.s3Providers Scenario.httpProviders
              Scenario.diskProviders) as [tr [d'|e|i n]] eqn:Hpass; cbn [snd].
  - destruct (@X4_published_keys _ Scenario.running _ _ _ _ _ _ Hpass)
      as (Hw & Ht & Hlen).
    split; [|split].
    + apply Hw. split; [reflexivity|].
      exists Scenario.doc1. split; [vm_compute; left|vm_compute; eauto].
    + apply Ht. split; [reflexivity|].
      exists Scenario.doc1. split; [vm_compute; left|vm_compute; eauto].
    + rewrite Hlen. vm_compute. reflexivity.
  - rewrite scenario_pass in Hpass. discriminate Hpass.
  - rewrite scenario_pass in Hpass. discriminate Hpass.
Defined.

(** X5: after a pass that returns, no published list is longer than the
    number of configured providers: a provider adds at most one url to the
    list of a name. *)
Theorem X5_list_length {URL : Type} `{!Env URL}
    (d d' : WebSeeds URL) (s3Providers : list string)
    (httpProviders : list URL) (diskProviders : list string)
    (tr : list Event) (name : string) :
  downloadWebseedTomlFromProviders d s3Providers httpProviders diskProviders
    = (tr, Ok d') ->
  (length (byFileName d' !!! name)
   <= length httpProviders + length s3Providers + length diskProviders)%nat
  /\ (length (torrentUrls d' !!! name)
      <= length httpProviders + length s3Providers + length diskProviders)%nat.
Proof.
  intros Hrun.
  destruct (published_lists d d' _ _ _ tr name Hrun) as [-> ->].
  pose proof (okDoc_length (visits d s3Providers httpProviders diskProviders)) as Hdocs.
  rewrite visits_length in Hdocs.
  unfold webSeedOf, torrentOf.
  destruct (strings.HasSuffix name ".torrent"); rewrite concat_nil; cbn [length].
  - split; [lia|].
    rewrite (concat_option_list (fun doc => doc !! name ≫= ParseRequestURI)).
    etransitivity; [apply omap_length_le|exact Hdocs].
  - split; [|lia].
    rewrite concat_option_list.
    etransitivity; [apply omap_length_le|exact Hdocs].
Qed.

Lemma X5_list_length_witness :
  match (@downloadWebseedTomlFromProviders _ Scenario.running Scenario.d0
           Scenario.s3Providers Scenario.httpProviders Scenario.diskProviders).2
  with
  | Ok d' => (length (byFileName d' !!! "a.seg") <= 2 + 1 + 1)%nat
  | _ => False
  end.
Proof.
  destruct (@downloadWebseedTomlFromProviders _ Scenario.running Scenario.d0
              Scenario.s3Providers Scenario.httpProviders
              Scenario.diskProviders) as [tr [d'|e|i n]] eqn:Hpass; cbn [snd].
  - exact (proj1 (@X5_list_length _ Scenario.running _ _ _ _ _ _ "a.seg" Hpass)).
  - rewrite scenario_pass in Hpass. discriminate Hpass.
  - rewrite scenario_pass in Hpass. discriminate Hpass.
Defined.

(** X6: the maps a pass publishes do not depend on the maps published
    before: two states of the same chain get the same events and the same
    two maps from the same providers. *)
Theorem X6_previous_maps_dropped {URL : Type} `{!Env URL}
    (d1 d2 d1' : WebSeeds URL) (s3Providers : list string)
    (httpProviders : list URL) (diskProviders : list string)
    (tr : list Event) :
  chainName d1 = chainName d2 ->
  downloadWebseedTomlFromProviders d1 s3Providers httpProviders diskProviders
    = (tr, Ok d1') ->
  downloadWebseedTomlFromProviders d2 s3Providers httpProviders diskProviders
    = (tr, Ok {| byFileName := byFileName d1'; torrentUrls := torrentUrls d1';
                 downloadTorrentFile := downloadTorrentFile d2;
                 chainName := chainName d2 |}).
Proof.
  intros Hchain Hrun.
  destruct (downloadWebseedTomlFromProviders_Ok _ _ _ _ _ _ Hrun) as (lst & Hc & ->).
  rewrite collectProviders_visits, (visits_chainName d1 d2 _ _ _ Hchain),
    <- collectProviders_visits in Hc.
  exact (downloadWebseedTomlFromProviders_collect d2 _ _ _ tr lst Hc).
Qed.

Lemma X6_previous_maps_dropped_witness :
  (@downloadWebseedTomlFromProviders _ Scenario.running ScenarioLocking.d0
     Scenario.s3Providers Scenario.httpProviders Scenario.diskProviders).2
  = (@downloadWebseedTomlFromProviders _ Scenario.running Scenario.d0
       Scenario.s3Providers Scenario.httpProviders Scenario.diskProviders).2.
Proof.
  destruct (@downloadWebseedTomlFromProviders _ Scenario.running Scenario.d0
              Scenario.s3Providers Scenario.httpProviders
              Scenario.diskProviders) as [tr [d'|e|i n]] eqn:Hpass.
  - rewrite (@X6_previous_maps_dropped _ Scenario.running Scenario.d0
               ScenarioLocking.d0 d' _ _ _ tr eq_refl Hpass).
    rewrite scenario_pass in Hpass. injection Hpass as _ <-. reflexivity.
  - rewrite scenario_pass in Hpass. discriminate Hpass.
  - rewrite scenario_pass in Hpass. discriminate Hpass.
Defined.

(** X7: the events of a pass that returns are, in this order, requests to
    HTTP providers (at most one for each), requests to the object store (at
    most one for each token), and the reads of the local files, one for
    every configured file in the configured order, whatever the network
    providers returned. *)
Theorem X7_events_in_visit_order {URL : Type} `{!Env URL}
    (d d' : WebSeeds URL) (s3Providers : list string)
    (httpProviders : list URL) (diskProviders : list string)
    (tr : list Event) :
  downloadWebseedTomlFromProviders d s3Providers httpProviders diskProviders
    = (tr, Ok d') ->
  exists requests objects,
    tr = requests ++ objects ++ (EvReadFile <$> diskProviders)
    /\ Forall isDo requests /\ (length requests <= length httpProviders)%nat
    /\ Forall isGetObject objects /\ (length objects <= length s3Providers)%nat.
Proof.
  intros Hrun.
  destruct (downloadWebseedTomlFromProviders_Ok _ _ _ _ _ _ Hrun) as (lst & Hc & _).
  rewrite collectProviders_visits in Hc.
  destruct (collectAll_Ok _ _ _ _ Hc) as [-> _].
  unfold visits. rewrite !fmap_app, !concat_app, diskCalls_events.
  destruct (httpCalls_events httpProviders 0) as [Hdo Hdolen].
  destruct (s3Calls_events d s3Providers (length httpProviders)) as [Hobj Hobjlen].
  eauto 10.
Qed.

Lemma X7_events_in_visit_order_witness :
  exists requests objects,
    (@downloadWebseedTomlFromProviders _ Scenario.running Scenario.d0
       Scenario.s3Providers Scenario.httpProviders Scenario.diskProviders).1
    = requests ++ objects ++ (EvReadFile <$> Scenario.diskProviders)
    /\ Forall isDo requests /\ (length requests <= 2)%nat
    /\ Forall isGetObject objects /\ (length objects <= 1)%nat.
Proof.
  destruct (@downloadWebseedTomlFromProviders _ Scenario.running Scenario.d0
              Scenario.s3Providers Scenario.httpProviders
              Scenario.diskProviders) as [tr [d'|e|i n]] eqn:Hpass.
  - exact (@X7_events_in_visit_order _ Scenario.running _ _ _ _ _ _ Hpass).
  - rewrite scenario_pass in Hpass. discriminate Hpass.
  - rewrite scenario_pass in Hpass. discriminate Hpass.
Defined.

(** ** The download pass, further *)
Section DownloadMore.
Context {URL : Type} `{!Env URL}.

(** The outcomes of [callTorrentHttpProvider]. *)
Lemma callTorrentHttpProvider_outcomes (done : bool) (url : URL) :
  ~ panics (callTorrentHttpProvider done url)
  /\ (forall t res,
        callTorrentHttpProvider done url = (t, Ok res) ->
        exists resp,
          NewRequest (URL_String url) = true
          /\ Do done (URL_String url) = Some resp
          /\ ((tooSmallOrTooBig (ContentLength resp) = true
               /\ res = EmptyString /\ t = [EvDo (URL_String url)])
              \/ (tooSmallOrTooBig (ContentLength resp) = false
                  /\ Body resp = Some res /\ bencodeDecode res = true
                  /\ t = [EvDo (URL_String url); EvReadAll (URL_String url)])))
  /\ (forall t e,
        callTorrentHttpProvider done url = (t, Err e) ->
        (t = [] /\ e = ErrNewRequest)
        \/ (t = [EvDo (URL_String url)] /\ e = ErrDo)
        \/ (t = [EvDo (URL_String url); EvReadAll (URL_String url)]
            /\ (e = ErrReadAll \/ e = ErrInvalidBytes (URL_Path url)))).
Proof.
  unfold callTorrentHttpProvider, validateTorrentBytes, panics.
  destruct (NewRequest (URL_String url)).
  2: { cbn. split; [tauto|]. split; [intros t res [=]|].
       intros t e [= <- <-]. now left. }
  destruct (Do done (URL_String url)) as [resp|].
  2: { cbn. split; [tauto|]. split; [intros t res [=]|].
       intros t e [= <- <-]. right. now left. }
  cbn. destruct (tooSmallOrTooBig (ContentLength resp)) eqn:Hgate.
  { cbn. split; [tauto|]. split; [|intros t e [=]].
    intros t res [= <- <-]. exists resp. repeat split. now left. }
  destruct (Body resp) as [res|] eqn:Hbody.
  2: { cbn. split; [tauto|]. split; [intros t res [=]|].
       intros t e [= <- <-]. right. right. split; [done|now left]. }
  cbn. destruct (bencodeDecode res) eqn:Hvalid; cbn.
  - split; [tauto|]. split; [|intros t e [=]].
    intros t res' [= <- <-]. exists resp. repeat split. right. now repeat split.
  - split; [tauto|]. split; [intros t res' [=]|].
    intros t e [= <- <-]. right. right. split; [done|now right].
Qed.

(** A call sends at most one request. *)
Lemma callTorrentHttpProvider_requests (done : bool) (url : URL) :
  (length (List.filter isDoEvent (callTorrentHttpProvider done url).1) <= 1)%nat.
Proof.
  destruct (callTorrentHttpProvider_outcomes done url) as (Hp & Hok & Herr).
  destruct (callTorrentHttpProvider done url) as [t [res|e|i n]].
  - destruct (Hok t res eq_refl) as (resp & _ & _ & [(_ & _ & ->)|(_ & _ & _ & ->)]);
      cbn; lia.
  - destruct (Herr t e eq_refl) as [[-> _]|[[-> _]|[-> _]]]; cbn; lia.
  - now destruct Hp.
Qed.

(** What a turn writes. *)
Lemma tryMirror_written (done : bool) (tPath : string) (url : URL) (fs fs' : FS)
    (t : list Event) (r : turn) :
  tryMirror done tPath url fs = (t, fs', r) ->
  r <> Crash
  /\ (length (List.filter isDoEvent t) <= 1)%nat
  /\ ((fs' = fs /\ r = Continue)
      \/ exists res, fs' = <[tPath := res]> fs /\ emptyOrValid res
                     /\ canPersist tPath = true /\ r = ReturnNil).
Proof.
  unfold tryMirror, saveTorrent. intros Hturn.
  pose proof (callTorrentHttpProvider_requests done url) as Hreq.
  destruct (callTorrentHttpProvider_outcomes done url) as (Hp & Hok & _).
  destruct (callTorrentHttpProvider done url) as [t0 [res|e|i n]];
    [|injection Hturn as <- <- <-; split; [done|]; split; [exact Hreq|now left]
     |now destruct Hp].
  assert (emptyOrValid res) as Hres.
  { destruct (Hok t0 res eq_refl) as (resp & _ & _ & [(_ & -> & _)|(_ & _ & Hv & _)]);
      [now left|now right]. }
  cbn [fst] in Hreq.
  destruct (canPersist tPath) eqn:Hdisk; injection Hturn as <- <- <-.
  - split; [done|]. split.
    + rewrite List.filter_app, length_app. cbn. lia.
    + right. now exists res.
  - split; [done|]. split.
    + rewrite List.filter_app, length_app. cbn. lia.
    + now left.
Qed.


(** When no mirror gives bytes, every mirror was asked and nothing is
    written. *)
Lemma torrentTask_all_fail (urls : list URL) :
  forall (done : nat -> bool) (tPath : string) (fs : FS),
    (forall i url, urls !! i = Some url ->
                   failed (callTorrentHttpProvider (done i) url)) ->
    torrentTask done tPath urls fs = (attempts done urls, fs).
Proof.
  induction urls as [|url urls IH]; intros done tPath fs Hfail; [reflexivity|].
  cbn [torrentTask]. unfold tryMirror.
  pose proof (Hfail 0%nat url eq_refl) as Hurl.
  destruct (callTorrentHttpProvider (done 0%nat) url) as [t0 [?|e|? ?]] eqn:Hcall;
    try now destruct Hurl.
  rewrite (IH (fun n => done (S n)) tPath fs)
    by (intros i u Hi; exact (Hfail (S i) u Hi)).
  unfold attempts. rewrite imap_cons. cbn [concat]. now rewrite Hcall.
Qed.

(** What the goroutine leaves on disk. *)
Lemma torrentTask_written (urls : list URL) :
  forall (done : nat -> bool) (tPath : string) (fs : FS),
    (torrentTask done tPath urls fs).2 = fs
    \/ exists res, (torrentTask done tPath urls fs).2 = <[tPath := res]> fs
                   /\ emptyOrValid res /\ canPersist tPath = true.
Proof.
  induction urls as [|url urls IH]; intros done tPath fs; [now left|].
  cbn [torrentTask].
  destruct (tryMirror (done 0%nat) tPath url fs) as [[t fs'] r] eqn:Hturn.
  destruct (tryMirror_written _ _ _ _ _ _ _ Hturn)
    as (_ & _ & [[-> ->]|(res & -> & Hres & Hdisk & ->)]).
  - specialize (IH (fun n => done (S n)) tPath fs).
    destruct (torrentTask (fun n => done (S n)) tPath urls fs) as [t' fs''].
    exact IH.
  - right. now exists res.
Qed.

Lemma sum_list_with_lookup {A} (f : A -> nat) (l : list A) (i : nat) (x : A) :
  l !! i = Some x ->
  sum_list_with f l
  = (sum_list_with f (take i l) + f x + sum_list_with f (drop (S i) l))%nat.
Proof.
  intros Hl. rewrite <- (take_drop_middle l i x Hl) at 1.
  rewrite sum_list_with_app. cbn. lia.
Qed.

Lemma sum_list_with_delete {A} (f : A -> nat) (l : list A) (i : nat) :
  sum_list_with f (delete i l)
  = (sum_list_with f (take i l) + sum_list_with f (drop (S i) l))%nat.
Proof. now rewrite delete_take_drop, sum_list_with_app. Qed.

Lemma sum_list_with_insert {A} (f : A -> nat) (l : list A) (i : nat) (x y : A) :
  l !! i = Some x ->
  sum_list_with f (<[i := y]> l)
  = (sum_list_with f (take i l) + f y + sum_list_with f (drop (S i) l))%nat.
Proof.
  intros Hl. rewrite insert_take_drop by (now apply lookup_lt_Some in Hl).
  rewrite sum_list_with_app. cbn. lia.
Qed.




(** Requests sent and mirrors left never exceed the mirrors of the map. *)
Lemma step_requests (rootDir : string) (s s' : Pass URL) :
  step rootDir s s' ->
  (requests s' + mirrorsLeft s' <= requests s + mirrorsLeft s)%nat.
Proof.
  unfold requests, mirrorsLeft. intros [Hloop|(done & i & Htask)].
  - unfold loopStep in Hloop.
    destruct (pending s) as [|[name urls] rest]; [done|].
    destruct (FileExist (files s) (Join rootDir name));
      [|destruct (notSupportedYet name)]; injection Hloop as <-; cbn;
      rewrite ?sum_list_with_app; cbn; lia.
  - unfold taskStep in Htask.
    destruct (tasks s !! i) as [tk|] eqn:Hi; [|done].
    rewrite (sum_list_with_lookup _ (tasks s) i tk Hi).
    destruct (tUrls tk) as [|url rest] eqn:Hurls.
    + injection Htask as <-. cbn [pending tasks trace].
      rewrite sum_list_with_delete. lia.
    + destruct (tryMirror done (tPath tk) url (files s)) as [[t fs'] r] eqn:Hturn.
      destruct (tryMirror_written _ _ _ _ _ _ _ Hturn) as (_ & Hreq & _).
      injection Htask as <-. cbn [pending tasks trace].
      rewrite List.filter_app, length_app.
      assert (length (List.filter (fun e : string * Event => isDoEvent e.2)
                        (map (pair (taskName tk)) t))
              = length (List.filter isDoEvent t)) as ->.
      { clear. induction t as [|ev t IH]; [reflexivity|].
        cbn. destruct (isDoEvent ev); cbn; now rewrite IH. }
      destruct r; rewrite ?sum_list_with_delete,
        ?(sum_list_with_insert _ _ _ tk _ Hi); cbn; lia.
Qed.

Lemma lawful_start (d : WebSeeds URL) (rootDir : string) (fs0 : FS)
    (order : list (string * list URL)) :
  order ≡ₚ map_to_list (torrentUrls d) ->
  lawful d rootDir fs0 (start order fs0).
Proof.
  intros Horder. split; [|split; [|split]]; cbn.
  - intros name urls Hin. rewrite Horder in Hin.
    now apply elem_of_map_to_list in Hin.
  - intros tk Htk. now apply elem_of_nil in Htk.
  - intros name ev Hin. now apply elem_of_nil in Hin.
  - intros p. now left.
Qed.

Lemma lawful_loopStep (d : WebSeeds URL) (rootDir : string) (fs0 : FS)
    (s s' : Pass URL) :
  kept rootDir fs0 s -> lawful d rootDir fs0 s ->
  loopStep rootDir s = Some s' -> lawful d rootDir fs0 s'.
Proof.
  intros (Hkept & _ & _) (Hpending & Htasks & Htrace & Hfiles) Hstep.
  unfold loopStep in Hstep.
  destruct (pending s) as [|[name urls] rest] eqn:Hp; [done|].
  assert (forall n us, (n, us) ∈ rest -> torrentUrls d !! n = Some us) as Hrest.
  { intros n us Hin. apply Hpending. now right. }
  destruct (FileExist (files s) (Join rootDir name)) eqn:Hex;
    [injection Hstep as <-; exact (conj Hrest (conj Htasks (conj Htrace Hfiles)))|].
  destruct (notSupportedYet name) eqn:Hskip; injection Hstep as <-;
    [exact (conj Hrest (conj Htasks (conj Htrace Hfiles)))|].
  split; [exact Hrest|]. split; [|exact (conj Htrace Hfiles)].
  cbn [tasks]. intros tk [Htk|Htk]%elem_of_app; [now apply Htasks|].
  apply list_elem_of_singleton in Htk as ->. cbn.
  split; [|split; [reflexivity|]].
  - split; [|exact Hskip]. rewrite (Hpending name urls) by left. eauto.
  - destruct (fs0 !! Join rootDir name) as [c|] eqn:Hfs0; [|done].
    apply FileExist_false in Hex. now rewrite (Hkept _ _ Hfs0) in Hex.
Qed.

Lemma lawful_taskStep (d : WebSeeds URL) (rootDir : string) (fs0 : FS)
    (done : bool) (i : nat) (s s' : Pass URL) :
  lawful d rootDir fs0 s -> taskStep done i s = Some s' -> lawful d rootDir fs0 s'.
Proof.
  intros (Hpending & Htasks & Htrace & Hfiles) Hstep. unfold taskStep in Hstep.
  destruct (tasks s !! i) as [tk|] eqn:Hi; [|done].
  pose proof (Htasks tk (list_elem_of_lookup_2 _ _ _ Hi)) as (Hname & Hpath & Hnew).
  destruct (tUrls tk) as [|url rest].
  { injection Hstep as <-. split; [exact Hpending|].
    split; [|exact (conj Htrace Hfiles)].
    cbn [tasks]. intros tk' Htk'. apply Htasks.
    now apply list_elem_of_delete_inv in Htk'. }
  destruct (tryMirror done (tPath tk) url (files s)) as [[t fs'] r] eqn:Hturn.
  destruct (tryMirror_written _ _ _ _ _ _ _ Hturn) as (_ & _ & Hwritten).
  injection Hstep as <-. split; [exact Hpending|]. split; [|split].
  - cbn [tasks]. intros tk' Htk'.
    destruct r; [|apply Htasks; now apply list_elem_of_delete_inv in Htk'..].
    apply elem_of_list_insert_inv in Htk' as [->|Htk']; [now cbn|now apply Htasks].
  - cbn [trace]. intros n ev [Hin|Hin]%elem_of_app; [now apply (Htrace n ev)|].
    now apply list_elem_of_fmap in Hin as (ev' & [= -> ->] & _).
  - cbn [files]. intros p.
    destruct Hwritten as [[-> _]|(res & -> & Hres & _ & _)]; [apply Hfiles|].
    destruct (decide (p = tPath tk)) as [->|Hne].
    + right. split; [exact Hnew|]. exists (taskName tk), res.
      split; [exact Hname|]. split; [exact Hpath|].
      split; [apply lookup_insert_eq|exact Hres].
    + rewrite lookup_insert_ne by done. apply Hfiles.
Qed.

Lemma lawful_passes (d : WebSeeds URL) (rootDir : string) (fs0 : FS) (s : Pass URL) :
  passes d rootDir fs0 s -> lawful d rootDir fs0 s.
Proof.
  unfold passes.
  destruct (negb (downloadTorrentFile d) || (size (torrentUrls d) =? 0)%nat).
  - intros ->. split; [|split; [|split]]; cbn.
    + intros name urls Hin. now apply elem_of_nil in Hin.
    + intros tk Htk. now apply elem_of_nil in Htk.
    + intros name ev Hin. now apply elem_of_nil in Hin.
    + intros p. now left.
  - intros (order & Horder & Hrun).
    enough (kept rootDir fs0 s /\ lawful d rootDir fs0 s) as [_ Hl] by exact Hl.
    apply (rtc_ind_r (R:=step rootDir)
             (fun s => kept rootDir fs0 s /\ lawful d rootDir fs0 s)
             (start order fs0));
      [split; [apply kept_start|now apply lawful_start]| |exact Hrun].
    intros s1 s2 _ [Hloop|(done & i & Htask)] [Hk Hl].
    + split; [now apply (kept_loopStep rootDir fs0 s1)|].
      now apply (lawful_loopStep d rootDir fs0 s1).
    + split; [now apply (kept_taskStep rootDir fs0 done i s1)|].
      now apply (lawful_taskStep d rootDir fs0 done i s1).
Qed.

Lemma requests_passes (d : WebSeeds URL) (rootDir : string) (fs0 : FS) (s : Pass URL) :
  passes d rootDir fs0 s ->
  (requests s + mirrorsLeft s
   <= sum_list_with (fun e : string * list URL => length e.2)
        (map_to_list (torrentUrls d)))%nat.
Proof.
  unfold passes.
  destruct (negb (downloadTorrentFile d) || (size (torrentUrls d) =? 0)%nat).
  - intros ->. cbn. lia.
  - intros (order & Horder & Hrun). rewrite <- Horder.
    apply (rtc_ind_r (R:=step rootDir)
             (fun s => (requests s + mirrorsLeft s
                        <= sum_list_with (fun e : string * list URL => length e.2)
                             order)%nat)
             (start order fs0)); [cbn; lia| |exact Hrun].
    intros s1 s2 _ Hstep IH. apply step_requests in Hstep. lia.
Qed.

End DownloadMore.

Section DownloadRunsMore.
Context {URL : Type} `{!Env URL}.


End DownloadRunsMore.

(** X8: [callTorrentHttpProvider] never panics.  When it returns bytes,
    either the response was stopped by line 271, the bytes are empty and
    the body was not read, or the response passed line 271 and the bytes
    are the whole body, which the bencode decoder accepts.  When it returns
    an error, this is the error of building the request (nothing was sent),
    of the request, of reading the body, or of the validation. *)
Theorem X8_mirror_call_outcomes {URL : Type} `{!Env URL} (done : bool) (url : URL) :
  ~ panics (callTorrentHttpProvider done url)
  /\ (forall t res,
        callTorrentHttpProvider done url = (t, Ok res) ->
        exists resp,
          NewRequest (URL_String url) = true
          /\ Do done (URL_String url) = Some resp
          /\ ((tooSmallOrTooBig (ContentLength resp) = true
               /\ res = EmptyString /\ t = [EvDo (URL_String url)])
              \/ (tooSmallOrTooBig (ContentLength resp) = false
                  /\ Body resp = Some res /\ bencodeDecode res = true
                  /\ t = [EvDo (URL_String url); EvReadAll (URL_String url)])))
  /\ (forall t e,
        callTorrentHttpProvider done url = (t, Err e) ->
        (t = [] /\ e = ErrNewRequest)
        \/ (t = [EvDo (URL_String url)] /\ e = ErrDo)
        \/ (t = [EvDo (URL_String url); EvReadAll (URL_String url)]
            /\ (e = ErrReadAll \/ e = ErrInvalidBytes (URL_Path url)))).
Proof. exact (callTorrentHttpProvider_outcomes done url). Qed.

Lemma X8_mirror_call_outcomes_witness :
  exists resp,
    @Do _ Scenario.running false "https://good.example/a.seg.torrent" = Some resp
    /\ tooSmallOrTooBig (ContentLength resp) = false
    /\ Body resp = Some Scenario.descriptor.
Proof.
  destruct (proj1 (proj2 (@X8_mirror_call_outcomes _ Scenario.running false
                            "https://good.example/a.seg.torrent"))
              [EvDo "https://good.example/a.seg.torrent";
               EvReadAll "https://good.example/a.seg.torrent"]
              Scenario.descriptor)
    as (resp & _ & Hdo & [(_ & Hres & _)|(Hgate & Hbody & _)]).
  - vm_compute. reflexivity.
  - discriminate Hres.
  - now exists resp.
Defined.



(** X10: whatever the mirrors answer, the goroutine of a name either
    leaves the file system as it is, or writes one file, at its path, and
    the bytes of this file are empty (a response stopped by line 271) or
    accepted by the bencode decoder. *)
Theorem X10_task_writes {URL : Type} `{!Env URL}
    (done : nat -> bool) (tPath : string) (urls : list URL) (fs : FS) :
  (torrentTask done tPath urls fs).2 = fs
  \/ exists res, (torrentTask done tPath urls fs).2 = <[tPath := res]> fs
                 /\ emptyOrValid res /\ canPersist tPath = true.
Proof. exact (torrentTask_written urls done tPath fs). Qed.

(** X11: when the call of every mirror of the list returns an error, the
    goroutine has asked every mirror once, in the order of the list, and
    has written nothing. *)
Theorem X11_all_mirrors_fail {URL : Type} `{!Env URL}
    (done : nat -> bool) (tPath : string) (urls : list URL) (fs : FS) :
  (forall i url, urls !! i = Some url ->
                 failed (callTorrentHttpProvider (done i) url)) ->
  torrentTask done tPath urls fs = (attempts done urls, fs).
Proof. exact (torrentTask_all_fail urls done tPath fs). Qed.

Lemma X11_all_mirrors_fail_witness :
  @torrentTask _ Scenario.running (fun _ => false) "/snapshots/a.seg.torrent"
    ["https://down.example/a.seg.torrent"; "https://down.example/b.seg.torrent"] ∅
  = ([EvDo "https://down.example/a.seg.torrent";
      EvDo "https://down.example/b.seg.torrent"], ∅).
Proof.
  rewrite (@X11_all_mirrors_fail _ Scenario.running).
  - vm_compute. reflexivity.
  - intros [|[|i]] url Hurl; try discriminate Hurl; injection Hurl as <-;
      vm_compute; exact I.
Defined.

(** X12: all along a pass, nothing is done for a name of a family that
    lines 137-143 skip (a name ending in ".v.torrent" or ".ef.torrent"
    whose file name starts with "commitment"): no request, no read, no
    save and no goroutine, even when the name has mirrors and no file. *)
Theorem X12_not_supported_skipped {URL : Type} `{!Env URL}
    (d : WebSeeds URL) (rootDir : string) (fs : FS) (s : Pass URL)
    (name : string) :
  passes d rootDir fs s ->
  notSupportedYet name = true ->
  (forall ev, (name, ev) ∉ trace s)
  /\ (forall tk, tk ∈ tasks s -> taskName tk <> name).
Proof.
  intros Hpass Hskip.
  destruct (lawful_passes d rootDir fs s Hpass) as (_ & Htasks & Htrace & _).
  split.
  - intros ev Hin. destruct (Htrace name ev Hin) as [_ Hname]. congruence.
  - intros tk Htk Heq. destruct (Htasks tk Htk) as [[_ Hname] _].
    rewrite Heq in Hname. congruence.
Qed.

Lemma X12_not_supported_skipped_witness :
  match @run _ Scenario.running "/snapshots" ScenarioSkip.schedule
          (start (map_to_list (torrentUrls ScenarioSkip.d)) ∅)
  with
  | Some s =>
      finished s
      /\ files s = ∅
      /\ (forall ev, ("history/commitment.0-32.v.torrent", ev) ∉ trace s)
  | None => False
  end.
Proof.
  assert ((fun s : Pass string => (pending s, tasks s, files s))
            <$> @run _ Scenario.running "/snapshots" ScenarioSkip.schedule
                  (start (map_to_list (torrentUrls ScenarioSkip.d)) ∅)
          = Some ([], [], ∅)) as Hend by (vm_compute; reflexivity).
  destruct (@run _ Scenario.running "/snapshots" ScenarioSkip.schedule
              (start (map_to_list (torrentUrls ScenarioSkip.d)) ∅))
    as [s|] eqn:Hrun; [|discriminate Hend].
  injection Hend as Hpending Htasks Hfiles.
  split; [now split|]. split; [exact Hfiles|].
  apply (@X12_not_supported_skipped _ Scenario.running ScenarioSkip.d
           "/snapshots" ∅ s "history/commitment.0-32.v.torrent").
  - apply (@passes_run _ Scenario.running _ _ _ ScenarioSkip.schedule);
      [reflexivity | vm_compute; discriminate | exact Hrun].
  - vm_compute. reflexivity.
Defined.

(** X13: all along a pass, every path of the file system either holds what
    it held when the pass was called, or held no file then and now holds,
    at rootDir/name for a name of the torrent map that is not skipped,
    bytes that are empty or accepted by the bencode decoder.  In
    particular the pass deletes and overwrites nothing. *)
Theorem X13_pass_writes {URL : Type} `{!Env URL}
    (d : WebSeeds URL) (rootDir : string) (fs : FS) (s : Pass URL) (p : string) :
  passes d rootDir fs s ->
  files s !! p = fs !! p
  \/ (fs !! p = None
      /\ exists name res,
           fetched d name /\ p = Join rootDir name
           /\ files s !! p = Some res /\ emptyOrValid res).
Proof.
  intros Hpass.
  destruct (lawful_passes d rootDir fs s Hpass) as (_ & _ & _ & Hfiles).
  apply Hfiles.
Qed.

Lemma X13_pass_writes_witness :
  match @run _ Scenario.running "/snapshots" ScenarioDownload.schedule
          (start (map_to_list (torrentUrls ScenarioDownload.d)) ScenarioDownload.fs)
  with
  | Some s =>
      files s !! "/snapshots/b.seg.torrent" = Some Scenario.descriptor
      /\ (files s !! "/etc/passwd" = ScenarioDownload.fs !! "/etc/passwd"
          \/ ScenarioDownload.fs !! "/etc/passwd" = None
             /\ exists name res,
                  @fetched _ ScenarioDownload.d name
                  /\ "/etc/passwd" = @Join _ Scenario.running "/snapshots" name
                  /\ files s !! "/etc/passwd" = Some res
                  /\ @emptyOrValid _ Scenario.running res)
  | None => False
  end.
Proof.
  assert ((fun s : Pass string => files s !! "/snapshots/b.seg.torrent")
            <$> @run _ Scenario.running "/snapshots" ScenarioDownload.schedule
                  (start (map_to_list (torrentUrls ScenarioDownload.d))
                     ScenarioDownload.fs)
          = Some (Some Scenario.descriptor)) as Hend by (vm_compute; reflexivity).
  destruct (@run _ Scenario.running "/snapshots" ScenarioDownload.schedule
              (start (map_to_list (torrentUrls ScenarioDownload.d))
                 ScenarioDownload.fs)) as [s|] eqn:Hrun; [|discriminate Hend].
  injection Hend as Hb. split; [exact Hb|].
  apply (@X13_pass_writes _ Scenario.running ScenarioDownload.d "/snapshots").
  apply (@passes_run _ Scenario.running _ _ _ ScenarioDownload.schedule);
    [reflexivity | vm_compute; discriminate | exact Hrun].
Defined.





(** X16: all along a pass, the number of requests sent is at most the
    number of mirrors in the torrent map: no mirror is asked twice and
    nothing is retried. *)
Theorem X16_no_retry {URL : Type} `{!Env URL}
    (d : WebSeeds URL) (rootDir : string) (fs : FS) (s : Pass URL) :
  passes d rootDir fs s ->
  (requests s + mirrorsLeft s
   <= sum_list_with (fun e : string * list URL => length e.2)
        (map_to_list (torrentUrls d)))%nat.
Proof. exact (requests_passes d rootDir fs s). Qed.

Lemma X16_no_retry_witness :
  match @run _ Scenario.running "/snapshots" ScenarioDownload.schedule
          (start (map_to_list (torrentUrls ScenarioDownload.d)) ScenarioDownload.fs)
  with
  | Some s => (requests s + mirrorsLeft s <= 2)%nat
  | None => False
  end.
Proof.
  destruct (@run _ Scenario.running "/snapshots" ScenarioDownload.schedule
              (start (map_to_list (torrentUrls ScenarioDownload.d))
                 ScenarioDownload.fs)) as [s|] eqn:Hrun.
  - assert (sum_list_with (fun e : string * list string => length e.2)
              (map_to_list (torrentUrls ScenarioDownload.d)) = 2%nat) as Hall
      by (vm_compute; reflexivity).
    rewrite <- Hall.
    apply (@X16_no_retry _ Scenario.running ScenarioDownload.d "/snapshots"
             ScenarioDownload.fs s).
    apply (@passes_run _ Scenario.running _ _ _ ScenarioDownload.schedule);
      [reflexivity | vm_compute; discriminate | exact Hrun].
  - vm_compute in Hrun. discriminate Hrun.
Defined.

(** ** The mutex, further *)
Section LockingMoreFacts.
Context {URL : Type}.
Import Locking.

Implicit Types (progs : list (list (instr (URL:=URL)))) (c : Config (URL:=URL)).

(** The holder of the mutex is one of the calls. *)
Lemma holder_is_call progs (d0 : WebSeeds URL) c :
  rtc (lstep progs) (init progs d0) c ->
  forall j, mu c = Some j -> is_Some (progs !! j) /\ is_Some (pcs c !! j).
Proof.
  intros Hrun.
  apply (rtc_ind_r (R:=lstep progs)
           (fun c => forall j, mu c = Some j ->
                               is_Some (progs !! j) /\ is_Some (pcs c !! j))
           (init progs d0)); [intros j [=]| |exact Hrun].
  intros c1 c2 _ [i Hexec] IH j Hj. unfold exec in Hexec.
  destruct (progs !! i) as [prog|] eqn:Hprog; [|done]. cbn in Hexec.
  destruct (pcs c1 !! i) as [pc|] eqn:Hpc; [|done]. cbn in Hexec.
  destruct (prog !! pc) as [ins|] eqn:Hins; [|done]. cbn in Hexec.
  assert (forall k, is_Some (pcs c1 !! k) -> is_Some (<[i := S pc]> (pcs c1) !! k))
    as Hkeep.
  { intros k Hk. apply lookup_lt_is_Some. rewrite length_insert.
    now apply lookup_lt_is_Some. }
  destruct ins; [destruct (mu c1) eqn:Hmu; [done|]|..];
    injection Hexec as <-; cbn in Hj |- *; try discriminate Hj.
  - injection Hj as <-. split; [eauto|]. apply Hkeep. eauto.
  - destruct (IH j Hj) as [Hp Hk]. split; [exact Hp|now apply Hkeep].
  - destruct (IH j Hj) as [Hp Hk]. split; [exact Hp|now apply Hkeep].
  - destruct (IH j Hj) as [Hp Hk]. split; [exact Hp|now apply Hkeep].
  - destruct (IH j Hj) as [Hp Hk]. split; [exact Hp|now apply Hkeep].
  - destruct (IH j Hj) as [Hp Hk]. split; [exact Hp|now apply Hkeep].
Qed.

(** A call inside its critical section can do its next statement. *)
Lemma exec_inside progs c (j : nat) (prog : list instr) (pc : nat) :
  IsCall prog -> progs !! j = Some prog -> pcs c !! j = Some pc ->
  (0 < pc < length prog)%nat -> is_Some (exec progs j c).
Proof.
  intros Hcall Hprog Hpc Hin. unfold exec. rewrite Hprog, Hpc. cbn.
  destruct Hcall; destruct pc as [|[|[|[|pc]]]]; cbn in Hin |- *;
    try lia; eauto.
Qed.

Lemma exec_lock progs c (i : nat) (prog : list instr) :
  IsCall prog -> progs !! i = Some prog -> pcs c !! i = Some 0%nat ->
  mu c = None -> is_Some (exec progs i c).
Proof.
  intros Hcall Hprog Hpc Hmu. unfold exec. rewrite Hprog, Hpc. cbn.
  destruct Hcall; cbn; rewrite Hmu; eauto.
Qed.

End LockingMoreFacts.

(** X17: in every configuration that concurrent publishing sections and
    accessors can reach, at most one call is between its [Lock] and the end
    of its [Unlock], and this call is the holder of the mutex. *)
Theorem X17_mutual_exclusion {URL : Type}
    (progs : list (list (Locking.instr (URL:=URL)))) (d0 : WebSeeds URL)
    (c : Locking.Config (URL:=URL)) (i j : nat) :
  Forall Locking.IsCall progs ->
  rtc (Locking.lstep progs) (Locking.init progs d0) c ->
  inside progs c i -> inside progs c j ->
  i = j /\ Locking.mu c = Some i.
Proof.
  intros Hcalls Hrun (pi & pci & Hpi & Hpci & Hini) (pj & pcj & Hpj & Hpcj & Hinj).
  destruct (Inv_reachable progs d0 c Hcalls Hrun) as [_ Hhold _ _].
  pose proof (proj2 (Hhold i pi pci Hpi Hpci) Hini) as Hi.
  pose proof (proj2 (Hhold j pj pcj Hpj Hpcj) Hinj) as Hj.
  split; [congruence|exact Hi].
Qed.

Lemma X17_mutual_exclusion_witness :
  match Locking.lrun ScenarioLocking.progs [0; 0]%nat
          (Locking.init ScenarioLocking.progs ScenarioLocking.d0)
  with
  | Some c => inside ScenarioLocking.progs c 0 /\ Locking.mu c = Some 0%nat
  | None => False
  end.
Proof.
  destruct (Locking.lrun ScenarioLocking.progs [0; 0]%nat
              (Locking.init ScenarioLocking.progs ScenarioLocking.d0))
    as [c|] eqn:Hrun; [|vm_compute in Hrun; discriminate Hrun].
  assert (inside ScenarioLocking.progs c 0) as Hin.
  { exists (Locking.publishSection ∅ ∅), 2%nat.
    split; [reflexivity|]. split; [|cbn; lia].
    assert ((fun c => Locking.pcs c !! 0%nat)
              <$> Locking.lrun ScenarioLocking.progs [0; 0]%nat
                    (Locking.init ScenarioLocking.progs ScenarioLocking.d0)
            = Some (Some 2%nat)) as Hpc by (vm_compute; reflexivity).
    rewrite Hrun in Hpc. now injection Hpc. }
  split; [exact Hin|].
  apply (X17_mutual_exclusion ScenarioLocking.progs ScenarioLocking.d0 c 0 0).
  - repeat (apply Forall_cons_2; [constructor|]). apply Forall_nil_2.
  - exact (lrun_rtc _ _ _ _ Hrun).
  - exact Hin.
  - exact Hin.
Defined.

(** X18: the calls cannot block each other for ever: in every
    configuration they can reach, as long as a call has not returned, some
    call can do its next statement. *)
Theorem X18_no_deadlock {URL : Type}
    (progs : list (list (Locking.instr (URL:=URL)))) (d0 : WebSeeds URL)
    (c : Locking.Config (URL:=URL)) (i : nat) :
  Forall Locking.IsCall progs ->
  rtc (Locking.lstep progs) (Locking.init progs d0) c ->
  unfinished progs c i ->
  exists c', Locking.lstep progs c c'.
Proof.
  intros Hcalls Hrun (prog & pc & Hprog & Hpc & Hlt).
  destruct (Inv_reachable progs d0 c Hcalls Hrun) as [_ Hhold _ _].
  destruct (Locking.mu c) as [j|] eqn:Hmu.
  - destruct (holder_is_call progs d0 c Hrun j Hmu) as [[pj Hpj] [pcj Hpcj]].
    pose proof (proj1 (Hhold j pj pcj Hpj Hpcj) eq_refl) as Hin.
    destruct (exec_inside progs c j pj pcj
                (Forall_lookup_1 _ _ _ _ Hcalls Hpj) Hpj Hpcj Hin) as [c' Hc'].
    exists c'. now exists j.
  - assert (pc = 0%nat) as ->.
    { destruct pc as [|pc]; [reflexivity|].
      assert (None = Some i) as Habs
        by (apply (Hhold i prog (S pc) Hprog Hpc); lia).
      discriminate Habs. }
    destruct (exec_lock progs c i prog
                (Forall_lookup_1 _ _ _ _ Hcalls Hprog) Hprog Hpc Hmu) as [c' Hc'].
    exists c'. now exists i.
Qed.

Lemma X18_no_deadlock_witness :
  match Locking.lrun ScenarioLocking.progs [0; 0]%nat
          (Locking.init ScenarioLocking.progs ScenarioLocking.d0)
  with
  | Some c => exists c', Locking.lstep ScenarioLocking.progs c c'
  | None => False
  end.
Proof.
  destruct (Locking.lrun ScenarioLocking.progs [0; 0]%nat
              (Locking.init ScenarioLocking.progs ScenarioLocking.d0))
    as [c|] eqn:Hrun; [|vm_compute in Hrun; discriminate Hrun].
  apply (X18_no_deadlock ScenarioLocking.progs ScenarioLocking.d0 c 2).
  - repeat (apply Forall_cons_2; [constructor|]). apply Forall_nil_2.
  - exact (lrun_rtc _ _ _ _ Hrun).
  - exists (Locking.ByFileName "a.seg"), 0%nat.
    split; [reflexivity|]. split; [|cbn; lia].
    assert ((fun c => Locking.pcs c !! 2%nat)
              <$> Locking.lrun ScenarioLocking.progs [0; 0]%nat
                    (Locking.init ScenarioLocking.progs ScenarioLocking.d0)
            = Some (Some 0%nat)) as Hpc by (vm_compute; reflexivity).
    rewrite Hrun in Hpc. now injection Hpc.
Defined.

Section DownloadEnds.
Context {URL : Type} `{!Env URL}.


End DownloadEnds.



Section LockingLastFacts.
Context {URL : Type}.
Import Locking.

Implicit Types (progs : list (list (instr (URL:=URL)))) (c : Config (URL:=URL)).

(** A statement of call [i] starts no publishing section, unless it is the
    [Lock] of one. *)
Lemma publishing_back progs c c' (i : nat) (prog : list instr) (pc : nat) :
  progs !! i = Some prog -> pcs c !! i = Some pc ->
  pcs c' = <[i := S pc]> (pcs c) ->
  (forall w t, prog = publishSection w t -> (0 < pc)%nat) ->
  publishing progs c' -> publishing progs c.
Proof.
  intros Hprog Hpc Hpcs Hstarted (k & w & t & pck & Hk & Hpck & Hpos).
  destruct (decide (k = i)) as [->|Hne].
  - exists i, w, t, pc. split; [exact Hk|]. split; [exact Hpc|].
    apply (Hstarted w t). congruence.
  - exists k, w, t, pck. split; [exact Hk|]. split; [|exact Hpos].
    rewrite Hpcs in Hpck. now rewrite list_lookup_insert_ne in Hpck.
Qed.

Lemma started_step progs d0 c c' :
  Forall IsCall progs -> Inv progs d0 c ->
  (publishing progs c -> ofSection progs (settled progs c)) ->
  lstep progs c c' ->
  publishing progs c' -> ofSection progs (settled progs c').
Proof.
  intros Hcalls [Hlen Hhold _ _] IH [i Hexec] Hstarted. unfold exec in Hexec.
  destruct (progs !! i) as [prog|] eqn:Hprog; [|done]. cbn in Hexec.
  destruct (pcs c !! i) as [pc|] eqn:Hpc; [|done]. cbn in Hexec.
  destruct (prog !! pc) as [ins|] eqn:Hins; [|done]. cbn in Hexec.
  pose proof (Forall_lookup_1 _ _ _ _ Hcalls Hprog) as Hcall.
  pose proof (Hhold i prog pc Hprog Hpc) as Hmu.
  pose proof (pcs_insert_same i pc (pcs c) Hpc) as Hsame.
  pose proof (list_elem_of_lookup_2 _ _ _ Hprog) as Hin.
  destruct Hcall; destruct pc as [|[|[|[|pc]]]]; cbn in Hins;
    try discriminate Hins; injection Hins as <-.
  (* the [Lock] of a publishing section *)
  1: { assert (mu c = None) as Hmuc by (now destruct (mu c)).
    rewrite Hmuc in Hexec. injection Hexec as <-.
    unfold ofSection, settled, remaining; cbn; rewrite Hprog, Hsame; cbn.
    exact Hin. }
  (* every other statement leaves the settled pair as it is *)
  all: assert (publishing progs c) as Hbefore
         by (first
               [ destruct (mu c) eqn:Hmuc;
                 [discriminate Hexec|injection Hexec as <-]
               | injection Hexec as <- ];
             refine (publishing_back progs c _ i _ _ Hprog Hpc _ _ Hstarted);
             [ reflexivity
             | intros w' t' Heq; first [lia | discriminate Heq] ]).
  all: specialize (IH Hbefore); unfold ofSection, settled, remaining in IH |- *.
  all: match goal with
       | H : pcs _ !! _ = Some 0 |- _ =>
           assert (mu c = None) as Hmuc by (now destruct (mu c));
           rewrite Hmuc in Hexec, IH; injection Hexec as <-;
           cbn; rewrite Hprog, Hsame; cbn; exact IH
       | _ =>
           assert (Hmuc := proj2 Hmu ltac:(cbn; lia));
           rewrite Hmuc, Hprog, Hpc in IH; cbn in IH;
           injection Hexec as <-;
           cbn; rewrite ?Hmuc, ?Hprog, ?Hsame; cbn; exact IH
       end.
Qed.

End LockingLastFacts.

(** X20: once a publishing section has taken the mutex, the pair of maps
    the next holder finds is the pair of one of the publishing sections (the
    whole pair, both maps of the same section): the maps present before the
    calls do not come back. *)
Theorem X20_initial_maps_gone {URL : Type}
    (progs : list (list (Locking.instr (URL:=URL)))) (d0 : WebSeeds URL)
    (c : Locking.Config (URL:=URL)) :
  Forall Locking.IsCall progs ->
  rtc (Locking.lstep progs) (Locking.init progs d0) c ->
  publishing progs c ->
  ofSection progs (Locking.settled progs c).
Proof.
  intros Hcalls Hrun.
  assert (Locking.Inv progs d0 c
          /\ (publishing progs c -> ofSection progs (Locking.settled progs c)))
    as [_ H]; [|exact H].
  apply (rtc_ind_r (R:=Locking.lstep progs)
           (fun c => Locking.Inv progs d0 c
                     /\ (publishing progs c
                         -> ofSection progs (Locking.settled progs c)))
           (Locking.init progs d0)); [| |exact Hrun].
  - split; [apply Inv_init|].
    intros (k & w & t & pck & _ & Hpck & Hpos). cbn in Hpck.
    apply lookup_replicate in Hpck as [-> _]. lia.
  - intros c1 c2 _ Hstep [HInv IH]. split.
    + now apply (Inv_step progs d0 c1).
    + now apply (started_step progs d0 c1 c2).
Qed.

Lemma X20_initial_maps_gone_witness :
  match Locking.lrun ScenarioLocking.progs [1; 1; 1; 0]%nat
          (Locking.init ScenarioLocking.progs ScenarioLocking.d0)
  with
  | Some c => ofSection ScenarioLocking.progs (Locking.settled ScenarioLocking.progs c)
  | None => False
  end.
Proof.
  destruct (Locking.lrun ScenarioLocking.progs [1; 1; 1; 0]%nat
              (Locking.init ScenarioLocking.progs ScenarioLocking.d0))
    as [c|] eqn:Hrun; [|vm_compute in Hrun; discriminate Hrun].
  apply (X20_initial_maps_gone ScenarioLocking.progs ScenarioLocking.d0 c).
  - repeat (apply Forall_cons_2; [constructor|]). apply Forall_nil_2.
  - exact (lrun_rtc _ _ _ _ Hrun).
  - exists 0%nat, ∅, ∅, 1%nat. split; [reflexivity|]. split; [|lia].
    assert ((fun c => Locking.pcs c !! 0%nat)
              <$> Locking.lrun ScenarioLocking.progs [1; 1; 1; 0]%nat
                    (Locking.init ScenarioLocking.progs ScenarioLocking.d0)
            = Some (Some 1%nat)) as Hpc by (vm_compute; reflexivity).
    rewrite Hrun in Hpc. now injection Hpc.
Defined.

